(** * Streaming chat backend: message-send pipeline and generation client

    A shallow embedding of [backend/src/routes/chats.ts] (the Express
    router) and [backend/src/openai-stream.ts] ([createAIStream]), with the
    properties of the message-send / streaming-response pipeline stated and
    settled against it.

    JavaScript strings are sequences of UTF-16 code units; they are modelled
    as [list N], so that [String.prototype.length] is [List.length],
    [trim] removes exactly the code units ECMAScript calls white space or
    line terminators, and [includes] is sub-list search. *)

From Stdlib Require Import List NArith Ascii String Bool Arith Lia.
Import ListNotations.

Set Implicit Arguments.

(** ** JavaScript strings *)

Module JS.

Definition jsstring := list N.

(** A literal of the source, written as a Rocq string. *)
Definition lit (s : string) : jsstring :=
  map N_of_ascii (list_ascii_of_string s).

Definition eqb (a b : jsstring) : bool :=
  if list_eq_dec N.eq_dec a b then true else false.

(** [WhiteSpace] and [LineTerminator] of ECMAScript: the code units that
    [String.prototype.trim] strips. *)
Definition isWhiteSpace (c : N) : bool :=
  ((9 <=? c) && (c <=? 13) || (c =? 32) || (c =? 160) || (c =? 5760)
   || ((8192 <=? c) && (c <=? 8202)) || (c =? 8232) || (c =? 8233)
   || (c =? 8239) || (c =? 8287) || (c =? 12288) || (c =? 65279))%N.

Fixpoint trimStart (s : jsstring) : jsstring :=
  match s with
  | c :: r => if isWhiteSpace c then trimStart r else s
  | [] => []
  end.

Definition trimEnd (s : jsstring) : jsstring := rev (trimStart (rev s)).

Definition trim (s : jsstring) : jsstring := trimEnd (trimStart s).

Fixpoint startsWith (s p : jsstring) : bool :=
  match p, s with
  | [], _ => true
  | _ :: _, [] => false
  | a :: p', b :: s' => (a =? b)%N && startsWith s' p'
  end.

(** [s.includes(p)]: [p] occurs in [s] as a contiguous run. *)
Fixpoint includes (s p : jsstring) : bool :=
  startsWith s p ||
  match s with
  | [] => false
  | _ :: r => includes r p
  end.

(** Truthiness of a string value: every string but the empty one. *)
Definition truthy (s : jsstring) : bool :=
  match s with [] => false | _ :: _ => true end.

(** Lexicographic order on code units; on the fixed-width output of
    [Date.prototype.toISOString] it is the chronological order, and it is
    how the store compares the TEXT column [created_at]. *)
Fixpoint leb (a b : jsstring) : bool :=
  match a, b with
  | [], _ => true
  | _ :: _, [] => false
  | x :: a', y :: b' => (x <? y)%N || ((x =? y)%N && leb a' b')
  end.

(** Values a JSON request body can hold in a field. *)
Inductive value :=
| VUndefined
| VNull
| VBool (b : bool)
| VNumber (n : N)
| VString (s : jsstring)
| VObject.

Definition value_truthy (v : value) : bool :=
  match v with
  | VUndefined | VNull => false
  | VBool b => b
  | VNumber n => negb (n =? 0)%N
  | VString s => truthy s
  | VObject => true
  end.

(** [typeof v === 'string'], and the string such a value is. *)
Definition typeof_string (v : value) : bool :=
  match v with VString _ => true | _ => false end.

Definition string_of (v : value) : jsstring :=
  match v with VString s => s | _ => [] end.

(** What JavaScript code can throw: an [Error] with its message, or any
    other value. *)
Inductive thrown :=
| ErrorObj (message : jsstring)
| NotAnError.

End JS.

Import JS.

(** ** The generation client: [createAIStream] of openai-stream.ts *)

Module OpenAIStream.

Inductive role := User | Assistant.

Record Message := { role_of : role; content : jsstring }.

Record StreamOptions := {
  instructions : option jsstring;
  conversationHistory : option (list Message)
}.

Definition DEFAULT_INSTRUCTIONS : jsstring :=
  lit "You are a helpful AI assistant for a construction document management platform called Muro.
You help users analyze construction documents, compare bids, review specifications, and answer questions about their projects.
Keep responses concise but informative. Use markdown formatting when helpful (bullet points, bold for emphasis).
If you don't have enough context to answer a question, ask for clarification.".

(** Entries of the [messages] array handed to the chat completion call. *)
Inductive prompt_role := PSystem | PUser | PAssistant.

Record prompt_message := { p_role : prompt_role; p_content : jsstring }.

Definition prompt_of (m : Message) : prompt_message :=
  {| p_role := match role_of m with User => PUser | Assistant => PAssistant end;
     p_content := content m |}.

Definition build_messages (userMessage : jsstring) (options : StreamOptions)
  : list prompt_message :=
  let instructions :=
    match instructions options with Some i => i | None => DEFAULT_INSTRUCTIONS end in
  let conversationHistory :=
    match conversationHistory options with Some h => h | None => [] end in
  {| p_role := PSystem; p_content := instructions |}
    :: map prompt_of conversationHistory
    ++ [ {| p_role := PUser; p_content := userMessage |} ].

(** What the remote call does: [create] rejects, or resolves to a stream
    that yields chunks (each with an optional [delta.content]) and then is
    exhausted or throws. *)
Inductive stream_end := StreamDone | StreamThrows (e : thrown).

Inductive create_result :=
| CreateRejects (e : thrown)
| CreateStream (chunks : list (option jsstring)) (fin : stream_end).

(** The translation in the [catch] block: the first test that matches, in
    the order of the [if]/[else if] chain. *)
Definition configuration_error := lit "AI service configuration error. Please contact support.".
Definition busy_error := lit "AI service is busy. Please try again in a moment.".
Definition quota_error := lit "AI service quota exceeded. Please contact support.".
Definition unavailable_error := lit "AI service temporarily unavailable. Please try again.".

Definition friendlyMessage (message : jsstring) : jsstring :=
  if includes message (lit "API key") then configuration_error
  else if includes message (lit "rate limit") then busy_error
  else if includes message (lit "insufficient_quota") then quota_error
  else unavailable_error.

(** The same rules as a table, read in order: the first pattern that
    occurs in the message decides. *)
Definition translation_rules : list (jsstring * jsstring) :=
  [ (lit "API key", configuration_error);
    (lit "rate limit", busy_error);
    (lit "insufficient_quota", quota_error) ].

Fixpoint first_match (rules : list (jsstring * jsstring)) (message : jsstring) : jsstring :=
  match rules with
  | [] => unavailable_error
  | (pattern, friendly) :: rest =>
      if includes message pattern then friendly else first_match rest message
  end.

(** The rule as the specification words it, "longest match wins": of the
    patterns that occur in the message, the longest decides. *)
Definition spec_longest_match (rules : list (jsstring * jsstring)) (message : jsstring)
  : jsstring :=
  snd (fold_left
         (fun best rule =>
            if includes message (fst rule)
               && (List.length (fst best) <? List.length (fst rule))
            then rule else best)
         rules (@nil N, unavailable_error)).

(** [err.message], where [err] is the thrown value when that is an
    [Error] and [new Error('Unknown error')] otherwise. *)
Definition error_message (error : thrown) : jsstring :=
  match error with ErrorObj m => m | NotAnError => lit "Unknown error" end.

(** What can be observed of one invocation, in the order it happens. *)
Inductive event :=
| EvCreate (messages : list prompt_message)
| EvCancel
| EvConsoleError (message : jsstring)
| EvChunk (text : jsstring)
| EvError (message : jsstring)
| EvDone (fullResponse : jsstring).

(** How the promise of the async function ends. *)
Inductive completion := Resolved | Rejected (e : thrown).

Section Invocation.

(** The caller's state, and its three callbacks: each transforms the
    state and may throw. *)
Variable C : Type.
Variable onChunk : jsstring -> C -> C * option thrown.
Variable onError : jsstring -> C -> C * option thrown.
Variable onDone : jsstring -> C -> C * option thrown.

(** The remote service, and the environment's use of the returned
    cleanup function: [cancel_during n] says that it is invoked while
    the invocation is suspended at its [n]-th [await] (number 0 is the
    [await] of [create], number [k] the [k]-th step of the stream). *)
Variable provider : list prompt_message -> create_result.
Variable cancel_during : nat -> bool.

Record state := {
  caller : C;
  cancelled : bool;
  trace : list event
}.

Definition record (e : event) (st : state) : state :=
  {| caller := caller st; cancelled := cancelled st; trace := trace st ++ [e] |}.

Definition cleanup (st : state) : state :=
  {| caller := caller st; cancelled := true; trace := trace st ++ [EvCancel] |}.

Definition await (n : nat) (st : state) : state :=
  if cancel_during n then cleanup st else st.

Definition call (cb : jsstring -> C -> C * option thrown) (e : event)
    (arg : jsstring) (st : state) : state * option thrown :=
  let '(s', r) := cb arg (caller st) in
  ({| caller := s'; cancelled := cancelled st; trace := trace st ++ [e] |}, r).

(** The [catch (error)] block. *)
Definition catch_block (error : thrown) (st : state) : state * completion :=
  if cancelled st then (st, Resolved)
  else
    let message := error_message error in
    let st := record (EvConsoleError message) st in
    let friendly := friendlyMessage message in
    match call onError (EvError friendly) friendly st with
    | (st', None) => (st', Resolved)
    | (st', Some e) => (st', Rejected e)
    end.

(** After the [for await] loop. *)
Definition after_loop (fullText : jsstring) (st : state) : state * completion :=
  if negb (cancelled st) then
    if negb (truthy fullText) then
      catch_block (ErrorObj (lit "No response from AI")) st
    else
      match call onDone (EvDone fullText) fullText st with
      | (st', None) => (st', Resolved)
      | (st', Some e) => catch_block e st'
      end
  else (st, Resolved).

(** The [for await (const chunk of stream)] loop; [n] numbers the
    [await] that fetches the next step of the stream. *)
Fixpoint for_await (chunks : list (option jsstring)) (fin : stream_end)
    (n : nat) (fullText : jsstring) (st : state) : state * completion :=
  let st := await n st in
  match chunks with
  | [] =>
      match fin with
      | StreamThrows e => catch_block e st
      | StreamDone => after_loop fullText st
      end
  | chunk :: rest =>
      if cancelled st then after_loop fullText st
      else
        match chunk with
        | Some ((_ :: _) as content) =>
            let fullText := fullText ++ content in
            match call onChunk (EvChunk content) content st with
            | (st', None) => for_await rest fin (S n) fullText st'
            | (st', Some e) => catch_block e st'
            end
        | _ => for_await rest fin (S n) fullText st
        end
  end.

Definition createAIStream (userMessage : jsstring) (options : StreamOptions)
    (s : C) : state * completion :=
  let st := {| caller := s; cancelled := false; trace := [] |} in
  let messages := build_messages userMessage options in
  let st := record (EvCreate messages) st in
  let st := await 0 st in
  match provider messages with
  | CreateRejects e => catch_block e st
  | CreateStream chunks fin =>
      if cancelled st then (st, Resolved)
      else for_await chunks fin 1 [] st
  end.

End Invocation.

(** The fragments of a stream: the truthy [delta.content] values. *)
Fixpoint fragments (chunks : list (option jsstring)) : list jsstring :=
  match chunks with
  | [] => []
  | Some ((_ :: _) as c) :: rest => c :: fragments rest
  | _ :: rest => fragments rest
  end.

(** The failure of the remote call, when it fails: [create] rejects, the
    stream throws, or it is exhausted with nothing accumulated (the
    [throw new Error('No response from AI')] of the [try] block). *)
Definition generation_failure (r : create_result) : option thrown :=
  match r with
  | CreateRejects e => Some e
  | CreateStream _ (StreamThrows e) => Some e
  | CreateStream chunks StreamDone =>
      match fragments chunks with
      | [] => Some (ErrorObj (lit "No response from AI"))
      | _ :: _ => None
      end
  end.

(** The fragments the remote call delivers before it ends. *)
Definition delivered (r : create_result) : list jsstring :=
  match r with
  | CreateRejects _ => []
  | CreateStream chunks _ => fragments chunks
  end.



Definition is_callback (e : event) : bool :=
  match e with
  | EvChunk _ | EvError _ | EvDone _ => true
  | _ => false
  end.

Definition is_terminal (e : event) : bool :=
  match e with
  | EvError _ | EvDone _ => true
  | _ => false
  end.

End OpenAIStream.

(** ** The store: the better-sqlite3 handle [db] of db.js *)

Module Store.

Inductive status := Sending | Sent | Failed.

(** Modelled from the spec: the schema (db.js is not among the sources).
    Two tables, conversations(id, title, created_at, updated_at) and
    messages(id, conversation_id, role, content, status, error_message,
    created_at), role in {user, assistant}, status in {sending, sent,
    failed}.  Rows carry their SQLite rowid; a table is kept in rowid
    order, which is insertion order. *)
Record conversation := {
  c_rowid : N;
  c_id : jsstring;
  c_title : jsstring;
  c_created_at : jsstring;
  c_updated_at : jsstring
}.

Record message := {
  m_rowid : N;
  m_id : jsstring;
  m_conversation_id : jsstring;
  m_role : OpenAIStream.role;
  m_content : jsstring;
  m_status : status;
  m_error_message : option jsstring;
  m_created_at : jsstring
}.

Record database := {
  conversations : list conversation;
  messages : list message;
  last_insert_rowid : N
}.

(** The info object returned by [Statement.run]. *)
Record RunResult := { changes : N; lastInsertRowid : N }.

(** Every JavaScript object is truthy, also the info object of a
    statement that changed no row. *)
Definition truthy_RunResult (_ : RunResult) : bool := true.

Definition next_rowid (rowids : list N) : N := N.succ (fold_right N.max 0%N rowids).

Definition count {A} (p : A -> bool) (l : list A) : N := N.of_nat (List.length (filter p l)).

(** INSERT INTO messages (id, conversation_id, role, content, status, created_at) *)
Definition insert_message (id conversation_id : jsstring) (role : OpenAIStream.role)
    (content : jsstring) (st : status) (created_at : jsstring) (d : database)
  : database * RunResult :=
  let rowid := next_rowid (map m_rowid (messages d)) in
  let row := {| m_rowid := rowid; m_id := id; m_conversation_id := conversation_id;
                m_role := role; m_content := content; m_status := st;
                m_error_message := None; m_created_at := created_at |} in
  ({| conversations := conversations d;
      messages := messages d ++ [row];
      last_insert_rowid := rowid |},
   {| changes := 1; lastInsertRowid := rowid |}).

Definition update_messages (f : message -> message) (id : jsstring) (d : database)
  : database * RunResult :=
  ({| conversations := conversations d;
      messages := map (fun m => if JS.eqb (m_id m) id then f m else m) (messages d);
      last_insert_rowid := last_insert_rowid d |},
   {| changes := count (fun m => JS.eqb (m_id m) id) (messages d);
      lastInsertRowid := last_insert_rowid d |}).

(** UPDATE messages SET status = ?, error_message = ? WHERE id = ? *)
Definition set_failed (error_message : jsstring) (m : message) : message :=
  {| m_rowid := m_rowid m; m_id := m_id m; m_conversation_id := m_conversation_id m;
     m_role := m_role m; m_content := m_content m; m_status := Failed;
     m_error_message := Some error_message; m_created_at := m_created_at m |}.

(** UPDATE messages SET content = ?, status = ? WHERE id = ? *)
Definition set_sent (content : jsstring) (m : message) : message :=
  {| m_rowid := m_rowid m; m_id := m_id m; m_conversation_id := m_conversation_id m;
     m_role := m_role m; m_content := content; m_status := Sent;
     m_error_message := m_error_message m; m_created_at := m_created_at m |}.

Definition update_conversations (f : conversation -> conversation) (id : jsstring)
    (d : database) : database * RunResult :=
  ({| conversations := map (fun c => if JS.eqb (c_id c) id then f c else c) (conversations d);
      messages := messages d;
      last_insert_rowid := last_insert_rowid d |},
   {| changes := count (fun c => JS.eqb (c_id c) id) (conversations d);
      lastInsertRowid := last_insert_rowid d |}).

(** UPDATE conversations SET updated_at = ? WHERE id = ? *)
Definition touch (updated_at : jsstring) (c : conversation) : conversation :=
  {| c_rowid := c_rowid c; c_id := c_id c; c_title := c_title c;
     c_created_at := c_created_at c; c_updated_at := updated_at |}.

(** UPDATE conversations SET title = ?, updated_at = ? WHERE id = ? *)
Definition retitle (title updated_at : jsstring) (c : conversation) : conversation :=
  {| c_rowid := c_rowid c; c_id := c_id c; c_title := title;
     c_created_at := c_created_at c; c_updated_at := updated_at |}.

(** DELETE FROM conversations WHERE id = ?
    Modelled from the spec: a conversation is deleted together with all its
    messages (the foreign key of the schema cascades). *)
Definition delete_conversation (id : jsstring) (d : database) : database * RunResult :=
  ({| conversations := filter (fun c => negb (JS.eqb (c_id c) id)) (conversations d);
      messages := filter (fun m => negb (JS.eqb (m_conversation_id m) id)) (messages d);
      last_insert_rowid := last_insert_rowid d |},
   {| changes := count (fun c => JS.eqb (c_id c) id) (conversations d);
      lastInsertRowid := last_insert_rowid d |}).

(** SELECT ... FROM conversations WHERE id = ? with [get]: the first row
    or [undefined]. *)
Definition get_conversation (id : jsstring) (d : database) : option conversation :=
  find (fun c => JS.eqb (c_id c) id) (conversations d).

(** ORDER BY created_at ASC over the rows in rowid order: rows with equal
    [created_at] stay in rowid order. *)
Fixpoint insert_by_created_at (x : message) (l : list message) : list message :=
  match l with
  | [] => [x]
  | y :: r =>
      if JS.leb (m_created_at x) (m_created_at y) then x :: l
      else y :: insert_by_created_at x r
  end.

Definition order_by_created_at (l : list message) : list message :=
  fold_right insert_by_created_at [] l.

(** SELECT * FROM messages WHERE conversation_id = ? ORDER BY created_at ASC *)
Definition select_messages (conversation_id : jsstring) (d : database) : list message :=
  order_by_created_at
    (filter (fun m => JS.eqb (m_conversation_id m) conversation_id) (messages d)).

(** SELECT role, content FROM messages
    WHERE conversation_id = ? AND id != ? ORDER BY created_at ASC *)
Definition select_history (conversation_id excluded_id : jsstring) (d : database)
  : list message :=
  order_by_created_at
    (filter (fun m => JS.eqb (m_conversation_id m) conversation_id
                      && negb (JS.eqb (m_id m) excluded_id)) (messages d)).

End Store.

(** ** The router: routes/chats.ts *)

Module Chats.

Import Store OpenAIStream.

(** The statements the router prepares. *)
Inductive statement :=
| GetConversation
| UpdateTitle
| DeleteConversation
| SelectMessages
| SelectConversationId
| InsertUserMessage
| InsertAssistantMessage
| TouchConversation
| SelectHistory
| MarkFailed
| MarkSent.

(** Bodies of plain JSON responses. *)
Inductive json :=
| JsonError (error : jsstring)
| JsonId (id : N)
| JsonConversation (row : conversation)
| JsonMessages (rows : list message)
| DefaultErrorPage.

(** One server-sent event: the [event:] line and its [data:] line, which
    the handler writes with two consecutive [res.write] calls. *)
Inductive sse_event :=
| SseChunk (content : jsstring)
| SseDone (messageId content : jsstring)
| SseError (error : jsstring).

Record response := {
  statusCode : N;
  headers : list (string * string);
  headersSent : bool;
  body : option json;
  events : list sse_event;
  ended : bool
}.

Definition fresh_response : response :=
  {| statusCode := 200; headers := []; headersSent := false; body := None;
     events := []; ended := false |}.

Inductive log_entry :=
| LogInfo (message : string)
| LogError (message : string) (error : thrown).

(** What a handler acts on: the store, the response object, the logger's
    output, and the statements executed so far. *)
Record world := {
  db : database;
  res : response;
  log : list log_entry;
  journal : list statement
}.

Definition fresh_world (d : database) : world :=
  {| db := d; res := fresh_response; log := []; journal := [] |}.

(** What one request draws from outside: the two [uuidv4()] results, the
    clock, which statements fail (and with what), and the remote service. *)
Record environment := {
  uuid1 : jsstring;
  uuid2 : jsstring;
  now : jsstring;
  fails : statement -> option thrown;
  provider : list prompt_message -> create_result
}.

(** Code that acts on the world and returns or throws. *)
Definition M (A : Type) : Type := world -> world * (A + thrown).

Definition ret {A} (a : A) : M A := fun w => (w, inl a).

Definition bind {A B} (m : M A) (k : A -> M B) : M B :=
  fun w => match m w with
           | (w', inl a) => k a w'
           | (w', inr e) => (w', inr e)
           end.

Notation "x <- m ;; k" := (bind m (fun x => k))
  (at level 61, m at next level, right associativity).
Notation "m ;;; k" := (bind m (fun _ => k))
  (at level 61, right associativity).

Definition try_catch {A} (body : M A) (handler : thrown -> M A) : M A :=
  fun w => match body w with
           | (w', inl a) => (w', inl a)
           | (w', inr e) => handler e w'
           end.

Definition with_res (f : response -> response) : M unit :=
  fun w => ({| db := db w; res := f (res w); log := log w; journal := journal w |}, inl tt).

Definition logger (e : log_entry) : M unit :=
  fun w => ({| db := db w; res := res w; log := log w ++ [e]; journal := journal w |}, inl tt).

(** [res.status(code).json(body)] *)
Definition status_json (code : N) (b : json) : M unit :=
  with_res (fun r => {| statusCode := code; headers := headers r; headersSent := true;
                        body := Some b; events := events r; ended := true |}).

(** [res.json(body)] *)
Definition send_json (b : json) : M unit :=
  with_res (fun r => {| statusCode := statusCode r; headers := headers r; headersSent := true;
                        body := Some b; events := events r; ended := true |}).

Definition setHeader (name value : string) : M unit :=
  with_res (fun r => {| statusCode := statusCode r; headers := headers r ++ [(name, value)];
                        headersSent := headersSent r; body := body r;
                        events := events r; ended := ended r |}).

Definition write (e : sse_event) : M unit :=
  with_res (fun r => {| statusCode := statusCode r; headers := headers r; headersSent := true;
                        body := body r; events := events r ++ [e]; ended := ended r |}).

Definition end_response : M unit :=
  with_res (fun r => {| statusCode := statusCode r; headers := headers r; headersSent := true;
                        body := body r; events := events r; ended := true |}).

Section Request.

Variable env : environment.

(** [db.prepare(sql).get(...)] or [.all(...)] *)
Definition query {A} (s : statement) (f : database -> A) : M A :=
  fun w =>
    let w := {| db := db w; res := res w; log := log w; journal := journal w ++ [s] |} in
    match fails env s with
    | Some e => (w, inr e)
    | None => (w, inl (f (db w)))
    end.

(** [db.prepare(sql).run(...)] *)
Definition run (s : statement) (f : database -> database * RunResult) : M RunResult :=
  fun w =>
    let w := {| db := db w; res := res w; log := log w; journal := journal w ++ [s] |} in
    match fails env s with
    | Some e => (w, inr e)
    | None =>
        let '(d, r) := f (db w) in
        ({| db := d; res := res w; log := log w; journal := journal w |}, inl r)
    end.

(** [db.transaction(fn)()]: commits when [fn] returns; when [fn] throws,
    the rows written since it began are rolled back and the exception is
    rethrown.  The rowid of the last successful INSERT belongs to the
    connection, not to the transaction: a rollback does not restore it. *)
Definition transaction {A} (fn : M A) : M A :=
  fun w =>
    match fn w with
    | (w', inl a) => (w', inl a)
    | (w', inr e) =>
        ({| db := {| conversations := conversations (db w);
                     messages := messages (db w);
                     last_insert_rowid := last_insert_rowid (db w') |};
            res := res w'; log := log w'; journal := journal w' |}, inr e)
    end.

(** A handler run by Express: what it throws goes to the default error
    handler. *)
Definition express (handler : M unit) (w : world) : world :=
  match handler w with
  | (w', inl _) => w'
  | (w', inr _) =>
      if headersSent (res w') then w'
      else fst (status_json 500 DefaultErrorPage w')
  end.

(** GET /api/chats/:id *)
Definition get_chat (id : jsstring) : M unit :=
  logger (LogInfo "Getting conversation by ID") ;;;
  row <- query GetConversation (get_conversation id) ;;
  match row with
  | None => status_json 404 (JsonError (lit "Not found"))
  | Some r => send_json (JsonConversation r)
  end.

(** PATCH /api/chats/:id *)
Definition patch_chat (id title : jsstring) : M unit :=
  logger (LogInfo "Updating conversation by ID") ;;;
  row <- run UpdateTitle (update_conversations (retitle title (now env)) id) ;;
  if negb (truthy_RunResult row) then status_json 404 (JsonError (lit "Not found"))
  else send_json (JsonId (lastInsertRowid row)).

(** DELETE /api/chats/:id *)
Definition delete_chat (id : jsstring) : M unit :=
  logger (LogInfo "Deleting conversation by ID") ;;;
  row <- run DeleteConversation (delete_conversation id) ;;
  if negb (truthy_RunResult row) then status_json 404 (JsonError (lit "Not found"))
  else send_json (JsonId (lastInsertRowid row)).

(** GET /api/chats/:id/messages *)
Definition get_messages (id : jsstring) : M unit :=
  logger (LogInfo "Getting messages for conversation by ID") ;;;
  rows <- query SelectMessages (select_messages id) ;;
  send_json (JsonMessages rows).

(** POST /api/chats/:id/messages, step 1: the input validation; the
    trimmed content, or the message of the 400 response. *)
Definition validate (content : value) : jsstring + jsstring :=
  if negb (value_truthy content) || negb (typeof_string content)
  then inr (lit "Message content is required")
  else
    let trimmedContent := trim (string_of content) in
    if (N.of_nat (List.length trimmedContent) =? 0)%N
    then inr (lit "Message content cannot be empty")
    else if (10000 <? N.of_nat (List.length trimmedContent))%N
    then inr (lit "Message too long (max 10000 characters)")
    else inl trimmedContent.

(** Step 3: the body of the transaction. *)
Definition setup (conversationId trimmedContent : jsstring)
  : M (jsstring * list Message) :=
  transaction (
    let userMessageId := uuid1 env in
    let assistantMessageId := uuid2 env in
    let now := now env in
    run InsertUserMessage
      (insert_message userMessageId conversationId User trimmedContent Sent now) ;;;
    run InsertAssistantMessage
      (insert_message assistantMessageId conversationId Assistant [] Sending now) ;;;
    run TouchConversation (update_conversations (touch now) conversationId) ;;;
    historyRows <- query SelectHistory (select_history conversationId assistantMessageId) ;;
    let conversationHistory :=
      map (fun row => {| role_of := m_role row; content := m_content row |}) historyRows in
    ret (assistantMessageId, conversationHistory)).

(** A callback as [createAIStream] sees it. *)
Definition callback (m : M unit) (w : world) : world * option thrown :=
  match m w with
  | (w', inl _) => (w', None)
  | (w', inr e) => (w', Some e)
  end.

Definition onChunk (chunk : jsstring) : M unit :=
  write (SseChunk chunk).

Definition onError (assistantMessageId : jsstring) (message : jsstring) : M unit :=
  logger (LogError "AI stream error" (ErrorObj message)) ;;;
  run MarkFailed (update_messages (set_failed message) assistantMessageId) ;;;
  write (SseError message) ;;;
  end_response.

Definition onDone (assistantMessageId : jsstring) (fullText : jsstring) : M unit :=
  logger (LogInfo "AI stream complete") ;;;
  run MarkSent (update_messages (set_sent fullText) assistantMessageId) ;;;
  write (SseDone assistantMessageId fullText) ;;;
  end_response.

(** Step 5: the call of [createAIStream]; the cleanup function it
    returns is dropped, so it is never invoked.  The call returns the
    observations of the invocation and how its promise ended. *)
Definition stream (trimmedContent assistantMessageId : jsstring)
    (conversationHistory : list Message) : M (list event * completion) :=
  fun w =>
    let '(st, c) :=
      createAIStream
        (fun chunk => callback (onChunk chunk))
        (fun message => callback (onError assistantMessageId message))
        (fun fullText => callback (onDone assistantMessageId fullText))
        (provider env) (fun _ => false)
        trimmedContent
        {| instructions := None; conversationHistory := Some conversationHistory |}
        w in
    (caller st, inl (trace st, c)).

(** POST /api/chats/:id/messages.  The result pairs the world with the
    observations of the generation, when it was started. *)
Definition post_messages (conversationId : jsstring) (content : value)
  : M (option (list event * completion)) :=
  match validate content with
  | inr message => status_json 400 (JsonError message) ;;; ret None
  | inl trimmedContent =>
      logger (LogInfo "Posting new message to conversation") ;;;
      try_catch
        (conversation <- query SelectConversationId (get_conversation conversationId) ;;
         match conversation with
         | None => status_json 404 (JsonError (lit "Conversation not found")) ;;; ret None
         | Some _ =>
             result <- setup conversationId trimmedContent ;;
             setHeader "Content-Type" "text/event-stream" ;;;
             setHeader "Cache-Control" "no-cache" ;;;
             setHeader "Connection" "keep-alive" ;;;
             g <- stream trimmedContent (fst result) (snd result) ;;
             ret (Some g)
         end)
        (fun error =>
           logger (LogError "Error processing message" error) ;;;
           fun w =>
             if negb (headersSent (res w))
             then (status_json 500 (JsonError (lit "Failed to process message")) ;;; ret None) w
             else (write (SseError (lit "Internal server error")) ;;;
                   end_response ;;; ret None) w)
  end.

End Request.

Definition is_terminal_event (e : sse_event) : bool :=
  match e with
  | SseDone _ _ | SseError _ => true
  | SseChunk _ => false
  end.

Definition is_done_event (e : sse_event) : bool :=
  match e with SseDone _ _ => true | _ => false end.

Definition is_error_event (e : sse_event) : bool :=
  match e with SseError _ => true | _ => false end.

End Chats.

(** ** Concrete requests *)

Module Scenario.

Import OpenAIStream Store Chats.

Definition conversation1 : conversation :=
  {| c_rowid := 1; c_id := lit "c1"; c_title := lit "New Conversation";
     c_created_at := lit "2024-05-01T10:00:00.000Z";
     c_updated_at := lit "2024-05-01T10:00:00.000Z" |}.

Definition store1 : database :=
  {| conversations := [conversation1]; messages := []; last_insert_rowid := 0 |}.

Definition healthy : statement -> option thrown := fun _ => None.

Definition locked : thrown := ErrorObj (lit "database is locked").

(** The update of [onDone] fails. *)
Definition sent_update_locked (s : statement) : option thrown :=
  match s with MarkSent => Some locked | _ => None end.

(** The update of [onError] fails. *)
Definition failed_update_locked (s : statement) : option thrown :=
  match s with MarkFailed => Some locked | _ => None end.

(** The second insert of the transaction fails. *)
Definition placeholder_insert_fails (s : statement) : option thrown :=
  match s with InsertAssistantMessage => Some locked | _ => None end.

Definition says_hello (_ : list prompt_message) : create_result :=
  CreateStream [Some (lit "Hel"); None; Some []; Some (lit "lo")] StreamDone.

Definition says_hi (_ : list prompt_message) : create_result :=
  CreateStream [Some (lit "Hi"); Some (lit "!")] StreamDone.

Definition rate_limited_after_hi (_ : list prompt_message) : create_result :=
  CreateStream [Some (lit "Hi")] (StreamThrows (ErrorObj (lit "429 rate limit reached"))).

Definition says_nothing (_ : list prompt_message) : create_result :=
  CreateStream [None; Some []] StreamDone.

Definition quota_message : jsstring :=
  lit "insufficient_quota: rate limit reached for requests".

Definition out_of_quota (_ : list prompt_message) : create_result :=
  CreateRejects (ErrorObj quota_message).

Definition request (fails : statement -> option thrown)
    (provider : list prompt_message -> create_result) : environment :=
  {| uuid1 := lit "user-1"; uuid2 := lit "assistant-1";
     now := lit "2024-05-01T10:05:00.000Z";
     fails := fails; provider := provider |}.

Definition hello : value := VString (lit "  Hello ").

(** 10,000 letters followed by one space: 10,001 code units. *)
Definition padded : jsstring := repeat 97%N (N.to_nat 10000) ++ [32%N].

(** Callbacks that only record what they are called with. *)
Definition note (tag : string) (text : jsstring) (seen : list (string * jsstring))
  : list (string * jsstring) * option thrown :=
  (seen ++ [(tag, text)], None).

Definition never (_ : nat) : bool := false.

(** The cleanup function is invoked while the second chunk is awaited. *)
Definition during_second_chunk (n : nat) : bool := Nat.eqb n 2.


End Scenario.

(** * Properties *)

(** ** Strings *)

Lemma eqb_eq a b : JS.eqb a b = true <-> a = b.
Proof.
  unfold JS.eqb. destruct (list_eq_dec N.eq_dec a b); split; congruence.
Qed.

Lemma eqb_refl a : JS.eqb a a = true.
Proof. now apply eqb_eq. Qed.

Lemma eqb_neq a b : a <> b -> JS.eqb a b = false.
Proof.
  intro H. destruct (JS.eqb a b) eqn:E; [|reflexivity].
  apply eqb_eq in E. contradiction.
Qed.

Lemma leb_refl a : JS.leb a a = true.
Proof.
  induction a as [|x a IH]; simpl; [reflexivity|].
  rewrite N.eqb_refl, IH. now rewrite orb_true_r.
Qed.

Lemma truthy_nonempty s : truthy s = true <-> s <> [].
Proof. destruct s; simpl; split; congruence. Qed.

(** ** The generation client *)

Section InvocationFacts.

Import OpenAIStream.

Variable C : Type.
Variables onChunk onError onDone : jsstring -> C -> C * option thrown.
Variable provider : list prompt_message -> create_result.
Variable cancel_during : nat -> bool.

Local Abbreviation state := (state C).
Local Abbreviation catch_block := (catch_block onError).
Local Abbreviation after_loop := (after_loop onError onDone).
Local Abbreviation for_await := (for_await onChunk onError onDone cancel_during).
Local Abbreviation createAIStream := (createAIStream onChunk onError onDone provider cancel_during).
Local Abbreviation await := (@await C cancel_during).

Lemma call_trace cb e arg (st : state) :
  trace (fst (call cb e arg st)) = trace st ++ [e]
  /\ cancelled (fst (call cb e arg st)) = cancelled st
  /\ caller (fst (call cb e arg st)) = fst (cb arg (caller st))
  /\ snd (call cb e arg st) = snd (cb arg (caller st)).
Proof. unfold call. destruct (cb arg (caller st)); simpl. auto. Qed.

(** *** Invariants of the flag and the trace

    The events an invocation appends, with the condition under which the
    code appends each: a callback, and the console line of the [catch]
    block, only while [cancelled] is false; [onChunk] and [onDone] only
    with a non-empty text. *)
Definition admissible (flag : bool) (e : event) : Prop :=
  match e with
  | EvCreate _ | EvCancel => True
  | EvConsoleError _ | EvError _ => flag = false
  | EvChunk text | EvDone text => flag = false /\ text <> []
  end.

Definition is_cancel (e : event) : bool :=
  match e with EvCancel => true | _ => false end.

Section Invariant.

Variable Inv : bool -> list event -> Prop.
Hypothesis Inv_step :
  forall flag tr e, Inv flag tr -> admissible flag e ->
                    Inv (flag || is_cancel e) (tr ++ [e]).

Let holds (st : state) : Prop := Inv (cancelled st) (trace st).

Lemma holds_record e st :
  holds st -> admissible (cancelled st) e -> is_cancel e = false ->
  holds (record e st).
Proof.
  unfold holds, record. simpl. intros H A N.
  pose proof (Inv_step e H A) as K. now rewrite N, orb_false_r in K.
Qed.

Lemma holds_call cb e arg st :
  holds st -> admissible (cancelled st) e -> is_cancel e = false ->
  holds (fst (call cb e arg st)).
Proof.
  unfold holds. intros H A N.
  destruct (call_trace cb e arg st) as (Ht & Hc & _). rewrite Ht, Hc.
  pose proof (Inv_step e H A) as K. now rewrite N, orb_false_r in K.
Qed.

Lemma holds_await n st : holds st -> holds (await n st).
Proof.
  unfold holds, OpenAIStream.await, cleanup. intro H.
  destruct (cancel_during n); simpl; [|assumption].
  pose proof (Inv_step EvCancel H I) as K. now rewrite orb_true_r in K.
Qed.

Lemma holds_catch_block e st : holds st -> holds (fst (catch_block e st)).
Proof.
  intro H. unfold OpenAIStream.catch_block.
  destruct (cancelled st) eqn:Ec; simpl; [assumption|].
  set (st1 := record _ st).
  assert (H1 : holds st1) by (apply holds_record; simpl; auto).
  pose proof (@holds_call onError (EvError (friendlyMessage (error_message e)))
                (friendlyMessage (error_message e)) st1 H1) as H2.
  destruct (call onError _ _ st1) as [st2 [x|]]; simpl in *; apply H2; auto.
Qed.

Lemma holds_after_loop fullText st : holds st -> holds (fst (after_loop fullText st)).
Proof.
  intro H. unfold OpenAIStream.after_loop.
  destruct (cancelled st) eqn:Ec; simpl; [assumption|].
  destruct fullText as [|c t]; simpl.
  - now apply holds_catch_block.
  - pose proof (@holds_call onDone (EvDone (c :: t)) (c :: t) st H) as H2.
    destruct (call onDone _ _ st) as [st2 [x|]]; simpl in *.
    + apply holds_catch_block, H2; [split; [assumption|discriminate]|reflexivity].
    + apply H2; [split; [assumption|discriminate]|reflexivity].
Qed.

Lemma holds_for_await chunks fin :
  forall n fullText st, holds st -> holds (fst (for_await chunks fin n fullText st)).
Proof.
  induction chunks as [|chunk rest IH]; intros n fullText st H; simpl.
  - apply (holds_await n) in H. destruct fin.
    + now apply holds_after_loop.
    + now apply holds_catch_block.
  - apply (holds_await n) in H.
    destruct (cancelled (await n st)) eqn:Ec.
    + now apply holds_after_loop.
    + destruct chunk as [[|c t]|]; try (now apply IH).
      pose proof (@holds_call onChunk (EvChunk (c :: t)) (c :: t) _ H) as H2.
      destruct (call onChunk _ _ (await n st)) as [st2 [x|]]; simpl in *.
      * apply holds_catch_block, H2; [split; [assumption|discriminate]|reflexivity].
      * apply IH, H2; [split; [assumption|discriminate]|reflexivity].
Qed.

Lemma holds_createAIStream userMessage options s :
  Inv false [] ->
  holds (fst (createAIStream userMessage options s)).
Proof.
  intro H0. unfold OpenAIStream.createAIStream.
  set (st0 := {| caller := s; cancelled := false; trace := [] |}).
  assert (H : holds st0) by exact H0.
  apply (@holds_record (EvCreate (build_messages userMessage options))) in H;
    [|exact I|reflexivity].
  apply (holds_await 0) in H.
  destruct (provider _).
  - now apply holds_catch_block.
  - destruct (cancelled (await 0 _)) eqn:Ec; [assumption|].
    now apply holds_for_await.
Qed.

End Invariant.

(** *** What the callbacks preserve, the invocation preserves *)

Section CallerInvariant.

Variable P : C -> Prop.
Hypothesis P_onChunk : forall c s, P s -> P (fst (onChunk c s)).
Hypothesis P_onError : forall m s, P s -> P (fst (onError m s)).
Hypothesis P_onDone : forall t s, P s -> P (fst (onDone t s)).

Lemma kept_by_await n (st : state) : P (caller st) -> P (caller (await n st)).
Proof. unfold OpenAIStream.await, cleanup. now destruct (cancel_during n). Qed.

Lemma kept_by_catch_block e (st : state) :
  P (caller st) -> P (caller (fst (catch_block e st))).
Proof.
  intro H. unfold OpenAIStream.catch_block.
  destruct (cancelled st); [assumption|].
  set (st1 := record _ st).
  destruct (call_trace onError (EvError (friendlyMessage (error_message e)))
              (friendlyMessage (error_message e)) st1) as (_ & _ & Hc & _).
  destruct (call onError _ _ st1) as [st2 [x|]]; simpl in *; rewrite Hc; now apply P_onError.
Qed.

Lemma kept_by_after_loop fullText (st : state) :
  P (caller st) -> P (caller (fst (after_loop fullText st))).
Proof.
  intro H. unfold OpenAIStream.after_loop.
  destruct (cancelled st); simpl; [assumption|].
  destruct (truthy fullText); simpl; [|now apply kept_by_catch_block].
  destruct (call_trace onDone (EvDone fullText) fullText st) as (_ & _ & Hc & _).
  destruct (call onDone _ _ st) as [st2 [x|]]; simpl in *.
  - apply kept_by_catch_block. rewrite Hc. now apply P_onDone.
  - rewrite Hc. now apply P_onDone.
Qed.

Lemma kept_by_for_await chunks fin : forall n fullText (st : state),
  P (caller st) -> P (caller (fst (for_await chunks fin n fullText st))).
Proof.
  induction chunks as [|chunk rest IH]; intros n fullText st H; simpl.
  - apply (kept_by_await n) in H. destruct fin.
    + now apply kept_by_after_loop.
    + now apply kept_by_catch_block.
  - apply (kept_by_await n) in H.
    destruct (cancelled (await n st)); [now apply kept_by_after_loop|].
    destruct chunk as [[|c t]|]; try (now apply IH).
    destruct (call_trace onChunk (EvChunk (c :: t)) (c :: t) (await n st))
      as (_ & _ & Hc & _).
    destruct (call onChunk _ _ (await n st)) as [st2 [x|]]; simpl in *.
    + apply kept_by_catch_block. rewrite Hc. now apply P_onChunk.
    + apply IH. rewrite Hc. now apply P_onChunk.
Qed.

Lemma kept_by_createAIStream userMessage options s :
  P s -> P (caller (fst (createAIStream userMessage options s))).
Proof.
  intro H. unfold OpenAIStream.createAIStream.
  set (st1 := record _ _).
  assert (H1 : P (caller (await 0 st1))) by (apply kept_by_await; exact H).
  destruct (provider _).
  - now apply kept_by_catch_block.
  - destruct (cancelled (await 0 st1)); [assumption|].
    now apply kept_by_for_await.
Qed.

End CallerInvariant.

End InvocationFacts.

(** *** Invocations whose cleanup function is never invoked *)

Section LiveInvocation.

Import OpenAIStream.

Variable C : Type.
Variables onChunk onError onDone : jsstring -> C -> C * option thrown.
Variable provider : list prompt_message -> create_result.
Variable cancel_during : nat -> bool.
Hypothesis never_cancelled : forall n, cancel_during n = false.

Local Abbreviation state := (state C).
Local Abbreviation catch_block := (catch_block onError).
Local Abbreviation after_loop := (after_loop onError onDone).
Local Abbreviation for_await := (for_await onChunk onError onDone cancel_during).
Local Abbreviation createAIStream := (createAIStream onChunk onError onDone provider cancel_during).

Lemma await_live n (st : state) : await cancel_during n st = st.
Proof. unfold await. now rewrite never_cancelled. Qed.

(** The end of the [try] block once the stream has ended. *)
Definition finish (fin : stream_end) (fullText : jsstring) (st : state) :=
  match fin with
  | StreamThrows e => catch_block e st
  | StreamDone => after_loop fullText st
  end.

(** Forwarding one fragment to [onChunk]. *)
Definition deliver (st : state) (c : jsstring) : state :=
  fst (call onChunk (EvChunk c) c st).

Lemma deliver_all_cancelled cs : forall st,
  cancelled (fold_left deliver cs st) = cancelled st.
Proof.
  induction cs as [|c cs IH]; intro st; simpl; [reflexivity|].
  rewrite IH. unfold deliver. now destruct (call_trace onChunk (EvChunk c) c st) as (_ & H & _).
Qed.

Lemma deliver_all_trace cs : forall st,
  trace (fold_left deliver cs st) = trace st ++ map EvChunk cs.
Proof.
  induction cs as [|c cs IH]; intro st; simpl; [now rewrite app_nil_r|].
  rewrite IH. unfold deliver.
  destruct (call_trace onChunk (EvChunk c) c st) as (H & _). rewrite H.
  now rewrite <- app_assoc.
Qed.

(** While [onChunk] returns normally, the loop forwards the fragments one
    by one and accumulates them. *)
Lemma for_await_unfold chunks fin : forall n fullText st,
  cancelled st = false ->
  (forall c s, In c (fragments chunks) -> snd (onChunk c s) = None) ->
  for_await chunks fin n fullText st
  = finish fin (fullText ++ List.concat (fragments chunks))
      (fold_left deliver (fragments chunks) st).
Proof.
  induction chunks as [|chunk rest IH]; intros n fullText st Hc Hn; simpl.
  - rewrite await_live, app_nil_r. reflexivity.
  - rewrite await_live, Hc.
    destruct chunk as [[|c t]|]; try (now apply IH).
    simpl. unfold deliver at 2.
    destruct (call_trace onChunk (EvChunk (c :: t)) (c :: t) st) as (_ & Hc' & _ & Hr).
    destruct (call onChunk (EvChunk (c :: t)) (c :: t) st) as [st' r] eqn:E.
    simpl in *. rewrite (Hn (c :: t) (caller st)) in Hr by (simpl; auto). subst r.
    rewrite IH.
    + now rewrite <- app_assoc.
    + congruence.
    + intros c0 s0 Hin. apply Hn. simpl. auto.
Qed.

Lemma catch_block_live e (st : state) :
  cancelled st = false ->
  let m := friendlyMessage (error_message e) in
  let r := onError m (caller st) in
  catch_block e st
  = ({| caller := fst r; cancelled := false;
        trace := trace st ++ [EvConsoleError (error_message e); EvError m] |},
     match snd r with None => Resolved | Some x => Rejected x end).
Proof.
  intro Hc. unfold OpenAIStream.catch_block, call, record. rewrite Hc. simpl.
  destruct (onError _ (caller st)) as [s' [x|]]; simpl; now rewrite <- app_assoc.
Qed.

Lemma after_loop_live fullText (st : state) :
  cancelled st = false -> fullText <> [] ->
  after_loop fullText st
  = let r := onDone fullText (caller st) in
    let st' := {| caller := fst r; cancelled := false;
                  trace := trace st ++ [EvDone fullText] |} in
    match snd r with
    | None => (st', Resolved)
    | Some x => catch_block x st'
    end.
Proof.
  intros Hc Hf. unfold OpenAIStream.after_loop, call. rewrite Hc. simpl.
  destruct fullText as [|c t]; [congruence|]. simpl.
  destruct (onDone (c :: t) (caller st)) as [s' [x|]]; reflexivity.
Qed.

Lemma deliver_all_caller cs : forall st : state,
  caller (fold_left deliver cs st)
  = fold_left (fun s c => fst (onChunk c s)) cs (caller st).
Proof.
  induction cs as [|c cs IH]; intro st; simpl; [reflexivity|].
  rewrite IH. unfold deliver.
  now destruct (call_trace onChunk (EvChunk c) c st) as (_ & _ & -> & _).
Qed.

Lemma createAIStream_unfold userMessage options s :
  let messages := build_messages userMessage options in
  let st := {| caller := s; cancelled := false; trace := [EvCreate messages] |} in
  createAIStream userMessage options s
  = match provider messages with
    | CreateRejects e => catch_block e st
    | CreateStream chunks fin => for_await chunks fin 1 [] st
    end.
Proof.
  unfold OpenAIStream.createAIStream. rewrite await_live. simpl.
  destruct (provider _); reflexivity.
Qed.

(** A failing remote call, seen from the caller: the fragments delivered,
    the console line, and one [onError] with the translated message. *)
Lemma failure_trace userMessage options s e :
  (forall c s, In c (delivered (provider (build_messages userMessage options))) ->
               snd (onChunk c s) = None) ->
  generation_failure (provider (build_messages userMessage options)) = Some e ->
  let r := createAIStream userMessage options s in
  let m := friendlyMessage (error_message e) in
  trace (fst r)
  = EvCreate (build_messages userMessage options)
      :: map EvChunk (delivered (provider (build_messages userMessage options)))
      ++ [EvConsoleError (error_message e); EvError m]
  /\ ((forall s', snd (onError m s') = None) -> snd r = Resolved).
Proof.
  intros Hn Hf. cbv zeta. rewrite createAIStream_unfold.
  destruct (provider _) as [e0|chunks fin]; simpl in Hf |- *.
  - injection Hf as ->. rewrite catch_block_live by reflexivity. simpl.
    split; [reflexivity|]. intro H. now rewrite H.
  - rewrite for_await_unfold by (assumption || reflexivity).
    set (st := fold_left _ _ _).
    assert (Hc : cancelled st = false) by (unfold st; now rewrite deliver_all_cancelled).
    assert (Ht : trace st = EvCreate (build_messages userMessage options)
                             :: map EvChunk (fragments chunks))
      by (unfold st; now rewrite deliver_all_trace).
    destruct fin as [|e0]; simpl.
    + destruct (fragments chunks) eqn:Ef; [|discriminate].
      injection Hf as <-. unfold OpenAIStream.after_loop. rewrite Hc. simpl.
      rewrite catch_block_live by assumption. simpl.
      split; [reflexivity|]. intro H. now rewrite H.
    + injection Hf as ->. rewrite catch_block_live by assumption. simpl. rewrite Ht.
      split; [reflexivity|]. intro H. now rewrite H.
Qed.







End LiveInvocation.

(** *** Cancellation *)

Section Cancellation.

Import OpenAIStream.




Lemma chunks_not_terminal cs : filter is_terminal (map EvChunk cs) = [].
Proof. induction cs; simpl; auto. Qed.

Lemma chunks_all_callbacks cs : filter is_callback (map EvChunk cs) = map EvChunk cs.
Proof. induction cs; simpl; congruence. Qed.



Definition done_invariant (_ : bool) (tr : list event) : Prop :=
  forall t, In (EvDone t) tr -> t <> [].

Lemma done_invariant_step flag tr e :
  done_invariant flag tr -> admissible flag e ->
  done_invariant (flag || is_cancel e) (tr ++ [e]).
Proof.
  intros H Ha t Hin. apply in_app_or in Hin as [Hin|[->|[]]]; [now apply H|].
  now destruct Ha.
Qed.

End Cancellation.

(** ** Claims about the generation client *)

Section ClientClaims.

Import OpenAIStream.

Variable C : Type.
Variables onChunk onError onDone : jsstring -> C -> C * option thrown.
Variable provider : list prompt_message -> create_result.
Variable cancel_during : nat -> bool.

Local Abbreviation createAIStream :=
  (createAIStream onChunk onError onDone provider cancel_during).


(** [onDone] is only ever called with a non-empty text; and when the
    stream is exhausted with nothing accumulated (and the invocation was
    not cancelled), the only callback that fires is [onError], with the
    generic message. *)
Lemma onDone_needs_text userMessage options s :
  let tr := trace (fst (createAIStream userMessage options s)) in
  (forall t, In (EvDone t) tr -> t <> [])
  /\ ((forall n, cancel_during n = false) ->
      forall chunks,
        provider (build_messages userMessage options) = CreateStream chunks StreamDone ->
        List.concat (fragments chunks) = [] ->
        filter is_callback tr = [EvError unavailable_error]).
Proof.
  cbv zeta. split.
  - apply (@holds_createAIStream C onChunk onError onDone provider cancel_during
             done_invariant done_invariant_step userMessage options s).
    intros t [].
  - intros Hn chunks Hp Hempty.
    assert (Hf : fragments chunks = []).
    { clear Hp. induction chunks as [|[[|c t]|] rest IH]; simpl in *; auto; discriminate. }
    destruct (@failure_trace C onChunk onError onDone provider cancel_during Hn
                userMessage options s (ErrorObj (lit "No response from AI"))) as [Ht _].
    + rewrite Hp. simpl. rewrite Hf. intros c s' [].
    + rewrite Hp. simpl. now rewrite Hf.
    + rewrite Ht, Hp. simpl. rewrite Hf. reflexivity.
Qed.

(** C4 (as amended).  When the remote call fails (and the invocation is not
    cancelled and its callbacks return normally), [onError] is the only
    terminal callback, called once, with the message of the first rule
    that matches in the order: "API key", "rate limit",
    "insufficient_quota", otherwise the generic message; and the promise
    of the invocation resolves, so nothing is raised elsewhere. *)
Theorem failure_translated_once userMessage options s e :
  (forall n, cancel_during n = false) ->
  (forall c s', snd (onChunk c s') = None) ->
  (forall m s', snd (onError m s') = None) ->
  generation_failure (provider (build_messages userMessage options)) = Some e ->
  let r := createAIStream userMessage options s in
  filter is_terminal (trace (fst r)) = [EvError (friendlyMessage (error_message e))]
  /\ snd r = Resolved
  /\ friendlyMessage (error_message e) = first_match translation_rules (error_message e).
Proof.
  intros Hn Hc He Hf. cbv zeta.
  destruct (@failure_trace C onChunk onError onDone provider cancel_during Hn
              userMessage options s e) as [Ht Hr]; [auto|assumption|].
  split; [|split].
  - rewrite Ht. simpl. rewrite filter_app, chunks_not_terminal. reflexivity.
  - apply Hr. intro. apply He.
  - reflexivity.
Qed.

End ClientClaims.

(** ** The store *)

Section StoreFacts.

Import OpenAIStream Store.

Lemma In_insert x y l :
  In x (insert_by_created_at y l) <-> y = x \/ In x l.
Proof.
  induction l as [|z l IH]; simpl; [tauto|].
  destruct (JS.leb _ _); simpl; [tauto|]. rewrite IH. tauto.
Qed.

Lemma In_order_by x l : In x (order_by_created_at l) <-> In x l.
Proof.
  induction l as [|y l IH]; simpl; [tauto|].
  rewrite In_insert, IH. tauto.
Qed.

(** [u] comes before [a] in [l]. *)
Definition before (u a : message) (l : list message) : Prop :=
  exists l1 l2 l3, l = l1 ++ u :: l2 ++ a :: l3.

Lemma before_cons u a y l : before u a l -> before u a (y :: l).
Proof. intros (l1 & l2 & l3 & ->). now exists (y :: l1), l2, l3. Qed.

Lemma before_head u a l : In a l -> before u a (u :: l).
Proof.
  intro H. apply in_split in H as (l2 & l3 & ->). now exists [], l2, l3.
Qed.

Lemma before_inv u a y l :
  before u a (y :: l) -> (y = u /\ In a l) \/ before u a l.
Proof.
  intros ([|z l1] & l2 & l3 & H); simpl in H; injection H as -> ->.
  - left. split; [reflexivity|]. apply in_or_app. right. now left.
  - right. now exists l1, l2, l3.
Qed.

Lemma before_insert u a x l :
  before u a l -> before u a (insert_by_created_at x l).
Proof.
  induction l as [|y l IH]; intro H.
  - destruct H as ([|? ?] & ? & ? & H); discriminate.
  - simpl. destruct (JS.leb _ _); [now apply before_cons|].
    apply before_inv in H as [[-> H]|H].
    + apply before_head, In_insert. now right.
    + now apply before_cons, IH.
Qed.

(** Rows with the same [created_at], appended in the order [u], [a], come
    out of ORDER BY created_at ASC in that order. *)
Lemma before_order_by l u a :
  m_created_at u = m_created_at a ->
  before u a (order_by_created_at (l ++ [u; a])).
Proof.
  intro H. induction l as [|y l IH]; simpl.
  - rewrite H, leb_refl. now exists [], [], [].
  - now apply before_insert.
Qed.

(** The columns no UPDATE of the router writes. *)
Definition row_key (m : message) : jsstring * role * jsstring * jsstring :=
  (m_id m, m_role m, m_conversation_id m, m_created_at m).

Definition keeps_keys (f : message -> message) : Prop :=
  forall m, row_key (f m) = row_key m.

Lemma insert_map f x l :
  keeps_keys f ->
  insert_by_created_at (f x) (map f l) = map f (insert_by_created_at x l).
Proof.
  intro Hf. induction l as [|y l IH]; simpl; [reflexivity|].
  pose proof (Hf x) as Hx. pose proof (Hf y) as Hy. unfold row_key in Hx, Hy.
  injection Hx as _ _ _ ->. injection Hy as _ _ _ ->.
  destruct (JS.leb _ _); simpl; [reflexivity|]. now rewrite IH.
Qed.

Lemma order_by_map f l :
  keeps_keys f -> order_by_created_at (map f l) = map f (order_by_created_at l).
Proof.
  intro Hf. induction l as [|y l IH]; simpl; [reflexivity|].
  now rewrite IH, insert_map.
Qed.

Lemma filter_conversation_map f conversation_id l :
  keeps_keys f ->
  filter (fun m => JS.eqb (m_conversation_id m) conversation_id) (map f l)
  = map f (filter (fun m => JS.eqb (m_conversation_id m) conversation_id) l).
Proof.
  intro Hf. induction l as [|y l IH]; simpl; [reflexivity|].
  pose proof (Hf y) as Hy. unfold row_key in Hy. injection Hy as _ _ -> _.
  destruct (JS.eqb _ _); simpl; now rewrite IH.
Qed.

Lemma select_messages_map f conversation_id d d' :
  keeps_keys f -> messages d' = map f (messages d) ->
  select_messages conversation_id d' = map f (select_messages conversation_id d).
Proof.
  intros Hf H. unfold select_messages.
  now rewrite H, filter_conversation_map, order_by_map.
Qed.

Lemma update_messages_map g id d :
  keeps_keys g ->
  exists f, keeps_keys f /\ messages (fst (update_messages g id d)) = map f (messages d).
Proof.
  intro Hg. exists (fun m => if JS.eqb (m_id m) id then g m else m). split; [|reflexivity].
  intro m. now destruct (JS.eqb _ _).
Qed.

Lemma set_sent_keeps content : keeps_keys (set_sent content).
Proof. now intros []. Qed.

Lemma set_failed_keeps message : keeps_keys (set_failed message).
Proof. now intros []. Qed.

Lemma keeps_keys_id : keeps_keys (fun m => m).
Proof. now intro. Qed.

(** Looking a conversation up after an UPDATE that keeps the ids. *)
Lemma find_retitled id id' f l :
  (forall c, c_id (f c) = c_id c) ->
  find (fun c => JS.eqb (c_id c) id')
       (map (fun c => if JS.eqb (c_id c) id then f c else c) l)
  = if JS.eqb id' id
    then option_map f (find (fun c => JS.eqb (c_id c) id') l)
    else find (fun c => JS.eqb (c_id c) id') l.
Proof.
  intro Hf. induction l as [|c l IH]; simpl; [now destruct (JS.eqb id' id)|].
  destruct (JS.eqb (c_id c) id) eqn:E1.
  - apply eqb_eq in E1. rewrite Hf, E1.
    destruct (JS.eqb id id') eqn:E2.
    + apply eqb_eq in E2. subst id'. now rewrite eqb_refl.
    + rewrite IH. destruct (JS.eqb id' id) eqn:E3; [|reflexivity].
      apply eqb_eq in E3. subst id'. now rewrite eqb_refl in E2.
  - destruct (JS.eqb (c_id c) id') eqn:E2.
    + apply eqb_eq in E2. subst id'. now rewrite E1.
    + exact IH.
Qed.

End StoreFacts.

(** ** The send pipeline *)

(** Running the handler on an input whose validation is known. *)
Ltac step_handler Hv :=
  unfold Chats.post_messages; rewrite Hv;
  unfold Chats.try_catch, Chats.setup, Chats.transaction, Chats.bind, Chats.ret,
    Chats.logger, Chats.query, Chats.run;
  simpl.

Section Pipeline.

Import OpenAIStream Store Chats.

Variable env : environment.

(** The store after the three writes of the setup transaction. *)
Definition after_setup (conversationId trimmedContent : jsstring) (d : database)
  : database :=
  fst (update_conversations (touch (now env)) conversationId
         (fst (insert_message (uuid2 env) conversationId Assistant [] Sending (now env)
                 (fst (insert_message (uuid1 env) conversationId User trimmedContent
                         Sent (now env) d))))).

(** The history read back inside the transaction, and the prompt options
    built from it. *)
Definition history (conversationId trimmedContent : jsstring) (d : database)
  : list Message :=
  map (fun row => {| role_of := m_role row; content := m_content row |})
      (select_history conversationId (uuid2 env)
         (after_setup conversationId trimmedContent d)).

Definition prompt (conversationId trimmedContent : jsstring) (d : database)
  : list prompt_message :=
  build_messages trimmedContent
    {| instructions := None;
       conversationHistory := Some (history conversationId trimmedContent d) |}.

(** A send that gets as far as the stream: the content is valid, the
    conversation exists, and no statement of the setup fails. *)
Definition accepted (conversationId : jsstring) (content : value)
    (trimmedContent : jsstring) (d : database) : Prop :=
  validate content = inl trimmedContent
  /\ fails env SelectConversationId = None
  /\ get_conversation conversationId d <> None
  /\ fails env InsertUserMessage = None
  /\ fails env InsertAssistantMessage = None
  /\ fails env TouchConversation = None
  /\ fails env SelectHistory = None.

(** The world in which the stream starts. *)
Definition streaming_world (conversationId trimmedContent : jsstring) (d : database)
  : world :=
  {| db := after_setup conversationId trimmedContent d;
     res := {| statusCode := 200;
               headers := [("Content-Type", "text/event-stream");
                           ("Cache-Control", "no-cache");
                           ("Connection", "keep-alive")]%string;
               headersSent := false; body := None; events := []; ended := false |};
     log := [LogInfo "Posting new message to conversation"];
     journal := [SelectConversationId; InsertUserMessage; InsertAssistantMessage;
                 TouchConversation; SelectHistory] |}.

Lemma post_messages_accepted conversationId content trimmedContent d :
  accepted conversationId content trimmedContent d ->
  post_messages env conversationId content (fresh_world d)
  = let '(w, r) :=
      stream env trimmedContent (uuid2 env) (history conversationId trimmedContent d)
        (streaming_world conversationId trimmedContent d) in
    (w, match r with inl g => inl (Some g) | inr e => inr e end).
Proof.
  intros (Hv & H1 & Hc & H2 & H3 & H4 & H5).
  unfold post_messages. rewrite Hv.
  unfold try_catch, bind, logger, query, setup, transaction, bind, run, query. simpl.
  rewrite H1. simpl.
  destruct (get_conversation conversationId d) as [c|] eqn:Ec; [|congruence].
  unfold bind, run, query. simpl. rewrite H2, H3, H4, H5. simpl.
  unfold stream. simpl.
  fold (after_setup conversationId trimmedContent d).
  fold (history conversationId trimmedContent d).
  fold (streaming_world conversationId trimmedContent d).
  destruct (createAIStream _ _ _ _ _ _ _ _). reflexivity.
Qed.

(** *** The three callbacks *)

Lemma onChunk_returns chunk w : snd (callback (onChunk chunk) w) = None.
Proof. reflexivity. Qed.

Lemma onChunk_world chunk w :
  let w' := fst (callback (onChunk chunk) w) in
  events (res w') = events (res w) ++ [SseChunk chunk] /\ db w' = db w.
Proof. split; reflexivity. Qed.

(** What [onError] sends: its event, unless its update threw. *)
Definition error_events (message : jsstring) : list sse_event :=
  match fails env MarkFailed with
  | None => [SseError message]
  | Some _ => []
  end.

Lemma onError_world assistantMessageId message w :
  let r := callback (onError env assistantMessageId message) w in
  snd r = fails env MarkFailed
  /\ events (res (fst r)) = events (res w) ++ error_events message
  /\ db (fst r)
     = match fails env MarkFailed with
       | None => fst (update_messages (set_failed message) assistantMessageId (db w))
       | Some _ => db w
       end.
Proof.
  unfold callback, onError, error_events, bind, logger, run, write, end_response, with_res.
  simpl. destruct (fails env MarkFailed); simpl; repeat split; now rewrite ?app_nil_r.
Qed.

Lemma onDone_world assistantMessageId fullText w :
  let r := callback (onDone env assistantMessageId fullText) w in
  snd r = fails env MarkSent
  /\ events (res (fst r))
     = events (res w)
       ++ match fails env MarkSent with
          | None => [SseDone assistantMessageId fullText]
          | Some _ => []
          end
  /\ db (fst r)
     = match fails env MarkSent with
       | None => fst (update_messages (set_sent fullText) assistantMessageId (db w))
       | Some _ => db w
       end.
Proof.
  unfold callback, onDone, bind, logger, run, write, end_response, with_res.
  simpl. destruct (fails env MarkSent); simpl; repeat split; now rewrite ?app_nil_r.
Qed.

(** *** The whole send, once accepted *)

Lemma fragments_nonempty chunks c : In c (fragments chunks) -> c <> [].
Proof.
  induction chunks as [|[[|a t]|] rest IH]; simpl; try tauto.
  intros [<-|H]; [discriminate|auto].
Qed.

Lemma concat_fragments_nil chunks :
  List.concat (fragments chunks) = [] -> fragments chunks = [].
Proof.
  destruct (fragments chunks) as [|c l] eqn:E; [reflexivity|].
  assert (Hc : c <> []) by (apply (@fragments_nonempty chunks); rewrite E; now left).
  simpl. destruct c; [congruence|discriminate].
Qed.

(** What the client of the generation observes, what the browser
    receives after the chunks, and what becomes of the store. *)
Definition reported (e : thrown) : list event :=
  [EvConsoleError (error_message e); EvError (friendlyMessage (error_message e))].

Definition client_trace (messages : list prompt_message) (r : create_result) : list event :=
  EvCreate messages :: map EvChunk (delivered r)
  ++ match generation_failure r with
     | Some e => reported e
     | None =>
         EvDone (List.concat (delivered r))
         :: match fails env MarkSent with None => [] | Some x => reported x end
     end.

Definition finalization (assistantMessageId : jsstring) (r : create_result)
  : list sse_event :=
  match generation_failure r with
  | Some e => error_events (friendlyMessage (error_message e))
  | None =>
      match fails env MarkSent with
      | None => [SseDone assistantMessageId (List.concat (delivered r))]
      | Some x => error_events (friendlyMessage (error_message x))
      end
  end.

Definition marked_failed (assistantMessageId : jsstring) (e : thrown) (d : database)
  : database :=
  match fails env MarkFailed with
  | None => fst (update_messages (set_failed (friendlyMessage (error_message e)))
                   assistantMessageId d)
  | Some _ => d
  end.

Definition finalized (assistantMessageId : jsstring) (r : create_result) (d : database)
  : database :=
  match generation_failure r with
  | Some e => marked_failed assistantMessageId e d
  | None =>
      match fails env MarkSent with
      | None => fst (update_messages (set_sent (List.concat (delivered r)))
                       assistantMessageId d)
      | Some x => marked_failed assistantMessageId x d
      end
  end.

Lemma chunks_written cs : forall w,
  let w' := fold_left (fun s c => fst (callback (onChunk c) s)) cs w in
  events (res w') = events (res w) ++ map SseChunk cs /\ db w' = db w.
Proof.
  induction cs as [|c cs IH]; intro w; cbn [fold_left map]; [now rewrite app_nil_r|].
  destruct (IH (fst (callback (onChunk c) w))) as [He Hd].
  rewrite He, Hd. simpl. now rewrite <- app_assoc.
Qed.

Lemma stream_summary trimmedContent assistantMessageId conversationHistory w :
  let messages := build_messages trimmedContent
                    {| instructions := None;
                       conversationHistory := Some conversationHistory |} in
  let r := provider env messages in
  let out := stream env trimmedContent assistantMessageId conversationHistory w in
  (exists c, snd out = inl (client_trace messages r, c))
  /\ events (res (fst out))
     = events (res w) ++ map SseChunk (delivered r) ++ finalization assistantMessageId r
  /\ db (fst out) = finalized assistantMessageId r (db w).
Proof.
  cbv zeta. unfold stream.
  rewrite (@createAIStream_unfold _ _ _ _ _ (fun _ => false) (fun _ => eq_refl)).
  set (messages := build_messages _ _).
  set (st0 := {| caller := w; cancelled := false; trace := [EvCreate messages] |}).
  unfold client_trace, finalization, finalized, marked_failed.
  destruct (provider env messages) as [e|chunks fin]; simpl.
  - rewrite catch_block_live by reflexivity. simpl.
    destruct (onError_world assistantMessageId (friendlyMessage (error_message e)) w)
      as (_ & He & Hd).
    rewrite He, Hd. split; [eauto|]. split; reflexivity.
  - rewrite for_await_unfold by (reflexivity || (intros; apply onChunk_returns)).
    simpl. set (st := fold_left _ _ st0).
    assert (Hc : cancelled st = false) by (unfold st; now rewrite deliver_all_cancelled).
    assert (Ht : trace st = EvCreate messages :: map EvChunk (fragments chunks))
      by (unfold st; now rewrite deliver_all_trace).
    destruct (chunks_written (fragments chunks) w) as [He Hd].
    assert (Hw : caller st
                 = fold_left (fun s c => fst (callback (onChunk c) s)) (fragments chunks) w)
      by (unfold st; now rewrite deliver_all_caller).
    rewrite <- Hw in He, Hd.
    assert (Herr : forall x,
      let out := catch_block (fun message => callback (onError env assistantMessageId message))
                   x st in
      (exists c, (trace (fst out), snd out)
                 = (EvCreate messages :: map EvChunk (fragments chunks) ++ reported x, c))
      /\ events (res (caller (fst out)))
         = events (res w) ++ map SseChunk (fragments chunks)
           ++ error_events (friendlyMessage (error_message x))
      /\ db (caller (fst out))
         = match fails env MarkFailed with
           | None => fst (update_messages (set_failed (friendlyMessage (error_message x)))
                            assistantMessageId (db w))
           | Some _ => db w
           end).
    { intro x. cbv zeta. rewrite catch_block_live by assumption. simpl.
      destruct (onError_world assistantMessageId (friendlyMessage (error_message x))
                  (caller st)) as (_ & He' & Hd').
      rewrite He', Hd', He, Hd, Ht. simpl. rewrite <- app_assoc.
      split; [eauto|]. split; reflexivity. }
    destruct fin as [|e]; simpl.
    + destruct (fragments chunks) as [|c0 l] eqn:Ef.
      * unfold after_loop. rewrite Hc. simpl.
        destruct (Herr (ErrorObj (lit "No response from AI"))) as ((c & Hx) & He2 & Hd2).
        destruct (catch_block _ _ st) as [st' c']. simpl in *.
        injection Hx as Hx1 Hx2. split; [|split]; try assumption.
        exists c. now rewrite Hx1, Hx2.
      * assert (Hfull : List.concat (c0 :: l) <> []).
        { assert (c0 <> []) by (apply (@fragments_nonempty chunks); rewrite Ef; now left).
          simpl. destruct c0; [congruence|discriminate]. }
        rewrite after_loop_live by assumption. cbv zeta.
        destruct (onDone_world assistantMessageId (List.concat (c0 :: l)) (caller st))
          as (Hs & He' & Hd').
        rewrite Hs. destruct (fails env MarkSent) as [x|] eqn:Es.
        -- rewrite catch_block_live by reflexivity. simpl.
           destruct (onError_world assistantMessageId (friendlyMessage (error_message x))
                       (fst (callback (onDone env assistantMessageId (List.concat (c0 :: l)))
                               (caller st)))) as (_ & He2 & Hd2).
           change (c0 ++ List.concat l) with (List.concat (c0 :: l)).
           rewrite He2, Hd2, He', Hd', He, Hd, Ht, app_nil_r. simpl.
           rewrite <- !app_assoc. split; [eauto|]. split; reflexivity.
        -- simpl. change (c0 ++ List.concat l) with (List.concat (c0 :: l)).
           rewrite He', Hd', He, Hd, Ht. simpl. rewrite <- !app_assoc.
           split; [eauto|]. split; reflexivity.
    + destruct (Herr e) as ((c & Hx) & He2 & Hd2).
      destruct (catch_block _ _ st) as [st' c']. simpl in *.
      injection Hx as Hx1 Hx2. split; [|split]; try assumption.
      exists c. now rewrite Hx1, Hx2.
Qed.

Lemma send_summary conversationId content trimmedContent d :
  accepted conversationId content trimmedContent d ->
  let r := provider env (prompt conversationId trimmedContent d) in
  let out := post_messages env conversationId content (fresh_world d) in
  (exists c, snd out
             = inl (Some (client_trace (prompt conversationId trimmedContent d) r, c)))
  /\ events (res (fst out)) = map SseChunk (delivered r) ++ finalization (uuid2 env) r
  /\ db (fst out) = finalized (uuid2 env) r (after_setup conversationId trimmedContent d).
Proof.
  intro Ha. cbv zeta. rewrite (post_messages_accepted Ha).
  destruct (stream_summary trimmedContent (uuid2 env)
              (history conversationId trimmedContent d)
              (streaming_world conversationId trimmedContent d)) as ((c & Hs) & He & Hd).
  fold (prompt conversationId trimmedContent d) in Hs, He, Hd.
  destruct (stream env _ _ _ _) as [w g]. simpl in *. subst g.
  split; [eauto|]. split; assumption.
Qed.

(** A send that is not accepted ends before the stream starts: a plain
    JSON response, the rows of both tables as they were, and no
    generation. *)
Definition refused (code : N) (message : string) (d : database)
    (out : world * (option (list event * completion) + thrown)) : Prop :=
  statusCode (res (fst out)) = code
  /\ body (res (fst out)) = Some (JsonError (lit message))
  /\ events (res (fst out)) = []
  /\ (conversations (db (fst out)) = conversations d
      /\ messages (db (fst out)) = messages d)
  /\ snd out = inl None.

(** No statement of the transaction fails. *)
Definition committed : Prop :=
  fails env InsertUserMessage = None
  /\ fails env InsertAssistantMessage = None
  /\ fails env TouchConversation = None
  /\ fails env SelectHistory = None.

Ltac now_refused :=
  simpl; split;
  [ unfold committed; intuition congruence
  | unfold refused; simpl; repeat split; eauto ].

Lemma send_cases conversationId content trimmedContent d :
  validate content = inl trimmedContent ->
  let out := post_messages env conversationId content (fresh_world d) in
  accepted conversationId content trimmedContent d
  \/ (get_conversation conversationId d = None
      /\ refused 404 "Conversation not found" d out)
  \/ (~ (fails env SelectConversationId = None /\ committed)
      /\ refused 500 "Failed to process message" d out).
Proof.
  intro Hv. cbv zeta.
  destruct (fails env SelectConversationId) as [x|] eqn:H1;
    [right; right; step_handler Hv; rewrite H1; now_refused|].
  destruct (get_conversation conversationId d) as [c|] eqn:Hc;
    [|right; left; step_handler Hv; rewrite H1; simpl; rewrite Hc; now_refused].
  destruct (fails env InsertUserMessage) as [x|] eqn:H2;
    [right; right; step_handler Hv; rewrite H1; simpl; rewrite Hc; simpl;
     rewrite H2; now_refused|].
  destruct (fails env InsertAssistantMessage) as [x|] eqn:H3;
    [right; right; step_handler Hv; rewrite H1; simpl; rewrite Hc; simpl;
     rewrite H2; simpl; rewrite H3; now_refused|].
  destruct (fails env TouchConversation) as [x|] eqn:H4;
    [right; right; step_handler Hv; rewrite H1; simpl; rewrite Hc; simpl;
     rewrite H2; simpl; rewrite H3; simpl; rewrite H4; now_refused|].
  destruct (fails env SelectHistory) as [x|] eqn:H5;
    [right; right; step_handler Hv; rewrite H1; simpl; rewrite Hc; simpl;
     rewrite H2; simpl; rewrite H3; simpl; rewrite H4; simpl; rewrite H5; now_refused|].
  left. unfold accepted. rewrite Hc. repeat split; auto. discriminate.
Qed.

(** *** The rows of one send *)

Definition user_row (conversationId trimmedContent : jsstring) (d : database) : message :=
  {| m_rowid := next_rowid (map m_rowid (messages d));
     m_id := uuid1 env; m_conversation_id := conversationId; m_role := User;
     m_content := trimmedContent; m_status := Sent; m_error_message := None;
     m_created_at := now env |}.

Definition placeholder_row (conversationId trimmedContent : jsstring) (d : database)
  : message :=
  {| m_rowid := next_rowid (map m_rowid
                              (messages d ++ [user_row conversationId trimmedContent d]));
     m_id := uuid2 env; m_conversation_id := conversationId; m_role := Assistant;
     m_content := []; m_status := Sending; m_error_message := None;
     m_created_at := now env |}.

Lemma after_setup_rows conversationId trimmedContent d :
  messages (after_setup conversationId trimmedContent d)
  = messages d ++ [user_row conversationId trimmedContent d;
                   placeholder_row conversationId trimmedContent d]
  /\ conversations (after_setup conversationId trimmedContent d)
     = map (fun c => if JS.eqb (c_id c) conversationId then touch (now env) c else c)
           (conversations d).
Proof.
  unfold after_setup, user_row, placeholder_row. simpl.
  now rewrite <- app_assoc.
Qed.

(** *** Claims about the stream of one send *)

Lemma chunk_events_not_terminal cs : filter is_terminal_event (map SseChunk cs) = [].
Proof. induction cs; simpl; auto. Qed.

Lemma chunk_events_not_done cs : filter is_done_event (map SseChunk cs) = [].
Proof. induction cs; simpl; auto. Qed.

Lemma chunk_events_not_error cs : filter is_error_event (map SseChunk cs) = [].
Proof. induction cs; simpl; auto. Qed.

(** C2 (as amended).  When the generation yields fragments and completes
    with a non-empty accumulation, the events are the chunk events of the
    fragments, in order, followed by one terminal event: a done event
    carrying their concatenation when the update that stores the reply
    succeeds; an error event, and no done event, when that update fails
    and the update that marks the placeholder failed succeeds.  When the
    generation fails after zero or more fragments and the update that
    marks the placeholder failed succeeds, the events are the chunk
    events followed by one error event, and there is no done event. *)
Theorem stream_events_in_order conversationId content trimmedContent d :
  accepted conversationId content trimmedContent d ->
  let r := provider env (prompt conversationId trimmedContent d) in
  let sent := events (res (fst (post_messages env conversationId content (fresh_world d)))) in
  (forall chunks,
      r = CreateStream chunks StreamDone ->
      List.concat (fragments chunks) <> [] ->
      fails env MarkSent = None ->
      sent = map SseChunk (fragments chunks)
             ++ [SseDone (uuid2 env) (List.concat (fragments chunks))])
  /\ (forall chunks x,
      r = CreateStream chunks StreamDone ->
      List.concat (fragments chunks) <> [] ->
      fails env MarkSent = Some x ->
      fails env MarkFailed = None ->
      sent = map SseChunk (fragments chunks)
             ++ [SseError (friendlyMessage (error_message x))]
      /\ filter is_done_event sent = []
      /\ List.length (filter is_error_event sent) = 1)
  /\ (forall e,
      generation_failure r = Some e ->
      fails env MarkFailed = None ->
      sent = map SseChunk (delivered r) ++ [SseError (friendlyMessage (error_message e))]
      /\ filter is_done_event sent = []
      /\ List.length (filter is_error_event sent) = 1).
Proof.
  intro Ha. cbv zeta.
  destruct (send_summary Ha) as (_ & He & _). rewrite He. clear He.
  unfold finalization, error_events. split; [|split].
  - intros chunks -> Hne ->. simpl.
    destruct (fragments chunks) as [|c l] eqn:Ef; [now simpl in Hne|reflexivity].
  - intros chunks x -> Hne -> ->. simpl.
    destruct (fragments chunks) as [|c l] eqn:Ef; [now simpl in Hne|].
    split; [reflexivity|].
    rewrite !filter_app, chunk_events_not_done, chunk_events_not_error. now simpl.
  - intros e -> ->. split; [reflexivity|].
    rewrite !filter_app, chunk_events_not_done, chunk_events_not_error. now simpl.
Qed.

(** C1 (as amended).  When the update of the finalization succeeds (the
    one that stores the reply after a successful generation, the one
    that marks the placeholder failed after a failed one), the client
    receives exactly one terminal event, the one the generation outcome
    determines.  A failing update is not swallowed by the
    callback: when the update in [onDone] fails after a successful
    generation, no done event is sent; the generation client catches the
    failure, logs it on the console and calls [onError] with its
    translation, so that (the update in [onError] succeeding) the one
    terminal event is an error event carrying that translation, and the
    placeholder, the last row of the table, is stored with status failed,
    the translation as its error message and its content still empty. *)
Theorem finalization_failure_reaches_client conversationId content trimmedContent d :
  accepted conversationId content trimmedContent d ->
  let r := provider env (prompt conversationId trimmedContent d) in
  let out := post_messages env conversationId content (fresh_world d) in
  let sent := events (res (fst out)) in
  (generation_failure r = None ->
   fails env MarkSent = None ->
   filter is_terminal_event sent = [SseDone (uuid2 env) (List.concat (delivered r))])
  /\ (forall e,
      generation_failure r = Some e ->
      fails env MarkFailed = None ->
      filter is_terminal_event sent = [SseError (friendlyMessage (error_message e))])
  /\ (forall x,
      generation_failure r = None ->
      fails env MarkSent = Some x ->
      fails env MarkFailed = None ->
      let translation := friendlyMessage (error_message x) in
      sent = map SseChunk (delivered r) ++ [SseError translation]
      /\ filter is_terminal_event sent = [SseError translation]
      /\ (exists tr c, snd out = inl (Some (tr, c))
                       /\ filter is_terminal tr
                          = [EvDone (List.concat (delivered r)); EvError translation]
                       /\ In (EvConsoleError (error_message x)) tr)
      /\ (exists rows a',
            messages (db (fst out)) = rows ++ [a']
            /\ (m_id a', m_conversation_id a', m_role a', m_content a', m_status a',
                m_error_message a', m_created_at a')
               = (uuid2 env, conversationId, Assistant, [], Failed,
                  Some translation, now env))
      /\ db (fst out)
         = fst (update_messages (set_failed translation)
                  (uuid2 env) (after_setup conversationId trimmedContent d))).
Proof.
  intro Ha. cbv zeta.
  destruct (send_summary Ha) as ((c & Ht) & He & Hd). rewrite He, Hd, Ht. clear He Hd Ht.
  unfold finalization, finalized, marked_failed, error_events, client_trace.
  split; [|split].
  - intros -> ->. now rewrite filter_app, chunk_events_not_terminal.
  - intros e -> ->. now rewrite filter_app, chunk_events_not_terminal.
  - intros x -> -> ->. rewrite filter_app, chunk_events_not_terminal.
    split; [reflexivity|]. split; [reflexivity|]. split; [|split; [|reflexivity]].
    + eexists _, c. split; [reflexivity|]. split.
      * cbn [filter is_terminal]. rewrite filter_app, chunks_not_terminal. reflexivity.
      * right. apply in_or_app. right. right. now left.
    + destruct (after_setup_rows conversationId trimmedContent d) as [Hm _].
      unfold update_messages. cbn [fst messages]. rewrite Hm.
      rewrite (app_assoc (messages d) [user_row conversationId trimmedContent d]
                 [placeholder_row conversationId trimmedContent d]  : _ ++ [_; _] = _).
      rewrite map_app. eexists _, _. split; [cbn [map]; reflexivity|].
      cbn [placeholder_row m_id]. rewrite eqb_refl. reflexivity.
Qed.

(** C5.  In the generation client, [onDone] is only ever called with a
    non-empty text; when the stream is exhausted with nothing accumulated
    (and the invocation is not cancelled) the only callback is [onError]
    with the generic message.  Hence no done event of a send carries an
    empty content. *)
Theorem empty_response_is_error :
  (forall (C : Type) (cbChunk cbError cbDone : jsstring -> C -> C * option thrown)
          (remote : list prompt_message -> create_result) (cancel_during : nat -> bool)
          userMessage options s,
      let tr := trace (fst (createAIStream cbChunk cbError cbDone remote cancel_during
                              userMessage options s)) in
      (forall t, In (EvDone t) tr -> t <> [])
      /\ ((forall n, cancel_during n = false) ->
          forall chunks,
            remote (build_messages userMessage options) = CreateStream chunks StreamDone ->
            List.concat (fragments chunks) = [] ->
            filter is_callback tr = [EvError unavailable_error]))
  /\ (forall conversationId content d messageId text,
        In (SseDone messageId text)
           (events (res (fst (post_messages env conversationId content (fresh_world d))))) ->
        text <> []).
Proof.
  split.
  - intros. apply onDone_needs_text.
  - intros conversationId content d messageId text Hin.
    destruct (validate content) as [t|m] eqn:Hv.
    + destruct (@send_cases conversationId content t d Hv) as [Ha|[H|H]].
      * destruct (send_summary Ha) as (_ & He & _). rewrite He in Hin. clear He.
        apply in_app_or in Hin as [Hin|Hin].
        { apply in_map_iff in Hin as (c & Hc & _). discriminate. }
        unfold finalization, error_events in Hin.
        destruct (generation_failure _) as [e|] eqn:Hg.
        { destruct (fails env MarkFailed); simpl in Hin; [tauto|].
          destruct Hin as [Hin|[]]. discriminate. }
        destruct (fails env MarkSent) as [x|].
        { destruct (fails env MarkFailed); simpl in Hin; [tauto|].
          destruct Hin as [Hin|[]]. discriminate. }
        destruct Hin as [Hin|[]]. injection Hin as _ <-.
        destruct (provider env _) as [e|chunks [|e]]; simpl in Hg |- *; try discriminate.
        intro Hn. apply concat_fragments_nil in Hn. now rewrite Hn in Hg.
      * destruct H as (_ & _ & _ & He & _). rewrite He in Hin. destruct Hin.
      * destruct H as (_ & _ & _ & He & _). rewrite He in Hin. destruct Hin.
    + unfold post_messages in Hin. rewrite Hv in Hin. simpl in Hin. destruct Hin.
Qed.

(** *** Validation and setup *)

(** The callbacks leave the status code and the journal's head alone. *)
Lemma callbacks_keep (P : world -> Prop) :
  (forall w w', statusCode (res w') = statusCode (res w) -> P w -> P w') ->
  forall trimmedContent assistantMessageId conversationHistory w,
    P w ->
    P (fst (stream env trimmedContent assistantMessageId conversationHistory w)).
Proof.
  intros HP trimmedContent assistantMessageId conversationHistory w Hw.
  unfold stream.
  pose proof (@kept_by_createAIStream world
                (fun chunk => callback (onChunk chunk))
                (fun message => callback (onError env assistantMessageId message))
                (fun fullText => callback (onDone env assistantMessageId fullText))
                (provider env) (fun _ => false) P) as K.
  destruct (createAIStream _ _ _ _ _ _ _ _) as [st c] eqn:E. simpl.
  assert (KC : forall c0 s, P s -> P (fst (callback (onChunk c0) s))).
  { intros c0 s H. now apply (HP s). }
  specialize (K KC).
  assert (KE : forall m s, P s -> P (fst (callback (onError env assistantMessageId m) s))).
  { intros m s H. apply (HP s); [|assumption].
    unfold callback, onError, bind, logger, run, write, end_response, with_res. simpl.
    now destruct (fails env MarkFailed). }
  assert (KD : forall t s, P s -> P (fst (callback (onDone env assistantMessageId t) s))).
  { intros t s H. apply (HP s); [|assumption].
    unfold callback, onDone, bind, logger, run, write, end_response, with_res. simpl.
    now destruct (fails env MarkSent). }
  specialize (K KE KD trimmedContent
                {| instructions := None; conversationHistory := Some conversationHistory |}
                w Hw).
  now rewrite E in K.
Qed.

Lemma accepted_status conversationId content trimmedContent d :
  accepted conversationId content trimmedContent d ->
  statusCode (res (fst (post_messages env conversationId content (fresh_world d)))) = 200%N.
Proof.
  intro Ha. rewrite (post_messages_accepted Ha).
  pose proof (@callbacks_keep (fun w => statusCode (res w) = 200%N)
                (fun w w' H Hw => eq_trans H Hw)
                trimmedContent (uuid2 env) (history conversationId trimmedContent d)
                (streaming_world conversationId trimmedContent d) eq_refl) as K.
  now destruct (stream env _ _ _ _).
Qed.

(** C6 (as amended).  Validation comes before any storage access and
    decides on the trimmed text: a content that is not a string, or whose
    trimmed form is empty or longer than 10,000 code units, gets a 400
    with no statement executed, the store untouched and no generation; a
    string whose trimmed form has between 1 and 10,000 code units passes
    validation and is never answered with a 400. *)
Theorem validation_before_storage conversationId content d :
  let out := post_messages env conversationId content (fresh_world d) in
  let trimmed := trim (string_of content) in
  let len := N.of_nat (List.length trimmed) in
  if (typeof_string content && (1 <=? len) && (len <=? 10000))%N
  then validate content = inl trimmed
       /\ statusCode (res (fst out)) <> 400%N
  else statusCode (res (fst out)) = 400%N
       /\ (exists message, body (res (fst out)) = Some (JsonError message))
       /\ db (fst out) = d
       /\ journal (fst out) = []
       /\ events (res (fst out)) = []
       /\ snd out = inl None.
Proof.
  cbv zeta.
  assert (Hrej : forall m, validate content = inr m ->
    statusCode (res (fst (post_messages env conversationId content (fresh_world d)))) = 400%N
    /\ (exists message,
          body (res (fst (post_messages env conversationId content (fresh_world d))))
          = Some (JsonError message))
    /\ db (fst (post_messages env conversationId content (fresh_world d))) = d
    /\ journal (fst (post_messages env conversationId content (fresh_world d))) = []
    /\ events (res (fst (post_messages env conversationId content (fresh_world d)))) = []
    /\ snd (post_messages env conversationId content (fresh_world d)) = inl None).
  { intros m Hv. unfold post_messages. rewrite Hv. simpl. repeat split; eauto. }
  assert (Hacc : forall t, validate content = inl t ->
    statusCode (res (fst (post_messages env conversationId content (fresh_world d))))
    <> 400%N).
  { intros t Hv. destruct (@send_cases conversationId content t d Hv) as [Ha|[H|H]].
    - rewrite (accepted_status Ha). discriminate.
    - destruct H as (_ & -> & _). discriminate.
    - destruct H as (_ & -> & _). discriminate. }
  destruct content as [| |b|n|s|]; simpl; try (apply (Hrej _ eq_refl));
    try (apply (Hrej (lit "Message content is required"));
         unfold validate; simpl; now rewrite orb_true_r).
  destruct s as [|c s]; [apply (Hrej _ eq_refl)|].
  assert (Hv : validate (VString (c :: s))
               = if (N.of_nat (List.length (trim (c :: s))) =? 0)%N
                 then inr (lit "Message content cannot be empty")
                 else if (10000 <? N.of_nat (List.length (trim (c :: s))))%N
                      then inr (lit "Message too long (max 10000 characters)")
                      else inl (trim (c :: s))) by reflexivity.
  set (text := c :: s) in *.
  set (len := N.of_nat (List.length (trim text))) in *.
  assert (H1 : (1 <=? len)%N = negb (len =? 0)%N)
    by (destruct (N.eqb_spec len 0), (N.leb_spec 1 len); try reflexivity; lia).
  rewrite H1, (N.leb_antisym 10000 len).
  destruct (len =? 0)%N; cbn [negb andb]; [exact (Hrej _ Hv)|].
  destruct (10000 <? len)%N; cbn [negb andb]; [exact (Hrej _ Hv)|].
  split; [exact Hv|exact (Hacc _ Hv)].
Qed.

Lemma finalized_rows assistantMessageId r d :
  exists f, keeps_keys f
            /\ messages (finalized assistantMessageId r d) = map f (messages d).
Proof.
  assert (Hid : exists f, keeps_keys f /\ messages d = map f (messages d)).
  { exists (fun m => m). split; [apply keeps_keys_id|]. now rewrite map_id. }
  unfold finalized, marked_failed.
  destruct (generation_failure r).
  - destruct (fails env MarkFailed); [assumption|].
    apply update_messages_map, set_failed_keeps.
  - destruct (fails env MarkSent).
    + destruct (fails env MarkFailed); [assumption|].
      apply update_messages_map, set_failed_keeps.
    + apply update_messages_map, set_sent_keeps.
Qed.

Lemma setup_commits conversationId trimmedContent w :
  committed ->
  exists w', setup env conversationId trimmedContent w
             = (w', inl (uuid2 env, history conversationId trimmedContent (db w)))
             /\ db w' = after_setup conversationId trimmedContent (db w).
Proof.
  intros (H1 & H2 & H3 & H4).
  unfold setup, transaction, bind, run, query, ret. simpl.
  rewrite H1. simpl. rewrite H2. simpl. rewrite H3. simpl. rewrite H4. simpl.
  eexists. split; reflexivity.
Qed.

Lemma setup_rolls_back conversationId trimmedContent w :
  ~ committed ->
  exists w' e, setup env conversationId trimmedContent w = (w', inr e)
               /\ conversations (db w') = conversations (db w)
               /\ messages (db w') = messages (db w).
Proof.
  intro Hn. unfold setup, transaction, bind, run, query, ret. simpl.
  destruct (fails env InsertUserMessage) eqn:H1; simpl; [eauto|].
  destruct (fails env InsertAssistantMessage) eqn:H2; simpl; [eauto|].
  destruct (fails env TouchConversation) eqn:H3; simpl; [eauto|].
  destruct (fails env SelectHistory) eqn:H4; simpl; [eauto|].
  exfalso. apply Hn. now repeat split.
Qed.

(** What a rollback does not undo: the connection's last insert rowid
    is the rowid of the last INSERT of the transaction that succeeded. *)
Lemma rollback_keeps_last_insert_rowid conversationId content trimmedContent d :
  validate content = inl trimmedContent ->
  fails env SelectConversationId = None ->
  get_conversation conversationId d <> None ->
  ~ committed ->
  last_insert_rowid
    (db (fst (post_messages env conversationId content (fresh_world d))))
  = match fails env InsertUserMessage with
    | Some _ => last_insert_rowid d
    | None =>
        match fails env InsertAssistantMessage with
        | Some _ => m_rowid (user_row conversationId trimmedContent d)
        | None => m_rowid (placeholder_row conversationId trimmedContent d)
        end
    end.
Proof.
  intros Hv H1 Hc Hn.
  destruct (get_conversation conversationId d) as [c|] eqn:Ec; [clear Hc|congruence].
  destruct (fails env InsertUserMessage) as [x|] eqn:H2;
    [step_handler Hv; rewrite H1; simpl; rewrite Ec; simpl; rewrite H2; reflexivity|].
  destruct (fails env InsertAssistantMessage) as [x|] eqn:H3;
    [step_handler Hv; rewrite H1; simpl; rewrite Ec; simpl; rewrite H2; simpl;
     rewrite H3; reflexivity|].
  destruct (fails env TouchConversation) as [x|] eqn:H4;
    [step_handler Hv; rewrite H1; simpl; rewrite Ec; simpl; rewrite H2; simpl;
     rewrite H3; simpl; rewrite H4; reflexivity|].
  destruct (fails env SelectHistory) as [x|] eqn:H5;
    [step_handler Hv; rewrite H1; simpl; rewrite Ec; simpl; rewrite H2; simpl;
     rewrite H3; simpl; rewrite H4; simpl; rewrite H5; reflexivity|].
  exfalso. apply Hn. now repeat split.
Qed.

(** C3.  For a valid send to an existing conversation, the setup is one
    transaction.  When none of its statements fails it commits, together,
    the user message (status sent), the assistant placeholder (status
    sending, empty content, no error) and the conversation with the
    instant of the send as its update time, everything else in it kept.
    When one fails, no row of either table is added or changed and the
    request is answered with a 500 before any stream; only the
    connection's last insert rowid keeps the trace of an INSERT that had
    succeeded.  Whatever happens afterwards, the store holds the user
    message and its placeholder together or neither. *)
Theorem setup_all_or_nothing conversationId content trimmedContent d :
  validate content = inl trimmedContent ->
  fails env SelectConversationId = None ->
  get_conversation conversationId d <> None ->
  let out := post_messages env conversationId content (fresh_world d) in
  let u := user_row conversationId trimmedContent d in
  let a := placeholder_row conversationId trimmedContent d in
  let d' := after_setup conversationId trimmedContent d in
  (committed ->
   (forall w, exists w',
       setup env conversationId trimmedContent w
       = (w', inl (uuid2 env, history conversationId trimmedContent (db w)))
       /\ db w' = after_setup conversationId trimmedContent (db w))
   /\ messages d' = messages d ++ [u; a]
   /\ (m_id u, m_conversation_id u, m_role u, m_content u, m_status u,
       m_error_message u, m_created_at u)
      = (uuid1 env, conversationId, User, trimmedContent, Sent, None, now env)
   /\ (m_id a, m_conversation_id a, m_role a, m_content a, m_status a,
       m_error_message a, m_created_at a)
      = (uuid2 env, conversationId, Assistant, [], Sending, None, now env)
   /\ conversations d'
      = map (fun c => if JS.eqb (c_id c) conversationId
                      then {| c_rowid := c_rowid c; c_id := c_id c; c_title := c_title c;
                              c_created_at := c_created_at c;
                              c_updated_at := now env |}
                      else c)
            (conversations d)
   /\ (exists c c',
         get_conversation conversationId d = Some c
         /\ get_conversation conversationId d' = Some c'
         /\ c_updated_at c' = now env
         /\ (c_id c', c_title c', c_created_at c') = (c_id c, c_title c, c_created_at c)))
  /\ (~ committed ->
      (forall w, exists w' e,
          setup env conversationId trimmedContent w = (w', inr e)
          /\ conversations (db w') = conversations (db w)
          /\ messages (db w') = messages (db w))
      /\ (statusCode (res (fst out)), body (res (fst out)))
         = (500%N, Some (JsonError (lit "Failed to process message")))
      /\ events (res (fst out)) = []
      /\ conversations (db (fst out)) = conversations d
      /\ messages (db (fst out)) = messages d
      /\ last_insert_rowid (db (fst out))
         = match fails env InsertUserMessage with
           | Some _ => last_insert_rowid d
           | None =>
               match fails env InsertAssistantMessage with
               | Some _ => m_rowid u
               | None => m_rowid a
               end
           end
      /\ snd out = inl None)
  /\ (map row_key (messages (db (fst out))) = map row_key (messages d)
      \/ map row_key (messages (db (fst out)))
         = map row_key (messages d) ++ [row_key u; row_key a]).
Proof.
  intros Hv Hs Hc. cbv zeta. split; [|split].
  - intro Hk. split; [intro w; now apply setup_commits|].
    destruct (after_setup_rows conversationId trimmedContent d) as [Hm Hcs].
    split; [exact Hm|]. split; [reflexivity|]. split; [reflexivity|].
    split; [exact Hcs|].
    unfold get_conversation in *. rewrite Hcs.
    rewrite (@find_retitled conversationId conversationId (touch (now env))
               (conversations d) (fun c => eq_refl)), eqb_refl.
    destruct (find _ (conversations d)) as [c|]; [|congruence].
    exists c, (touch (now env) c). now repeat split.
  - intro Hn. split; [intro w; now apply setup_rolls_back|].
    destruct (@send_cases conversationId content trimmedContent d Hv) as [Ha|[[H _]|[_ H]]].
    + exfalso. apply Hn. destruct Ha as (_ & _ & _ & ? & ? & ? & ?). now repeat split.
    + congruence.
    + destruct H as (H1 & H2 & H3 & (H4 & H5) & H6). rewrite H1, H2.
      do 4 (split; [assumption || reflexivity|]).
      split; [now apply rollback_keeps_last_insert_rowid|assumption].
  - destruct (@send_cases conversationId content trimmedContent d Hv)
      as [Ha|[[_ H]|[_ H]]].
    + right. destruct (send_summary Ha) as (_ & _ & Hd). rewrite Hd.
      destruct (finalized_rows (uuid2 env)
                  (provider env (prompt conversationId trimmedContent d))
                  (after_setup conversationId trimmedContent d)) as (f & Hf & Hm).
      rewrite Hm. destruct (after_setup_rows conversationId trimmedContent d) as [-> _].
      rewrite map_map, map_app. simpl. rewrite !Hf.
      f_equal. apply map_ext. intro m. apply Hf.
    + left. destruct H as (_ & _ & _ & (_ & ->) & _). reflexivity.
    + left. destruct H as (_ & _ & _ & (_ & ->) & _). reflexivity.
Qed.

(** C9.  The user message and the placeholder of a send carry the same
    [created_at] and are inserted in that order, so GET
    /chats/:id/messages (ORDER BY created_at ASC over rows kept in rowid
    order) lists the user message before its reply, both when the stream
    starts and once the send is over. *)
Theorem user_message_before_reply conversationId content trimmedContent d reader :
  accepted conversationId content trimmedContent d ->
  fails reader SelectMessages = None ->
  let out := post_messages env conversationId content (fresh_world d) in
  forall d',
    d' = after_setup conversationId trimmedContent d \/ d' = db (fst out) ->
    exists l1 u l2 a l3,
      body (res (express (get_messages reader conversationId) (fresh_world d')))
      = Some (JsonMessages (l1 ++ u :: l2 ++ a :: l3))
      /\ (m_id u, m_role u) = (uuid1 env, User)
      /\ (m_id a, m_role a) = (uuid2 env, Assistant)
      /\ m_created_at u = m_created_at a.
Proof.
  intros Ha Hr. cbv zeta. intros d' Hd'.
  assert (Hbody : body (res (express (get_messages reader conversationId) (fresh_world d')))
                  = Some (JsonMessages (select_messages conversationId d'))).
  { unfold express, get_messages, bind, logger, query, send_json, with_res. simpl.
    rewrite Hr. reflexivity. }
  rewrite Hbody. clear Hbody.
  set (u := user_row conversationId trimmedContent d).
  set (a := placeholder_row conversationId trimmedContent d).
  assert (Hb : before u a (select_messages conversationId
                             (after_setup conversationId trimmedContent d))).
  { unfold select_messages.
    destruct (after_setup_rows conversationId trimmedContent d) as [-> _].
    rewrite filter_app. simpl. rewrite eqb_refl. now apply before_order_by. }
  assert (Hf : exists f, keeps_keys f /\ messages d'
                         = map f (messages (after_setup conversationId trimmedContent d))).
  { destruct Hd' as [->| ->].
    - exists (fun m => m). split; [apply keeps_keys_id|]. now rewrite map_id.
    - destruct (send_summary Ha) as (_ & _ & ->). apply finalized_rows. }
  destruct Hf as (f & Hf & Hm).
  rewrite (@select_messages_map f conversationId _ _ Hf Hm).
  destruct Hb as (l1 & l2 & l3 & ->).
  exists (map f l1), (f u), (map f l2), (f a), (map f l3).
  rewrite map_app. simpl. rewrite map_app. simpl. split; [reflexivity|].
  pose proof (Hf u) as Hu. pose proof (Hf a) as Hfa. unfold row_key in Hu, Hfa.
  injection Hu as -> -> _ ->. injection Hfa as -> -> _ ->. now repeat split.
Qed.

(** C10.  The prompt handed to the provider holds the new user message
    twice.  The history read back in the transaction is the conversation
    without the rows that carry the placeholder's id, so (the two ids
    being different) it holds the user message just inserted; and
    [createAIStream] appends the same text once more as the last turn. *)
Theorem prompt_repeats_user_message conversationId content trimmedContent d :
  accepted conversationId content trimmedContent d ->
  uuid1 env <> uuid2 env ->
  let out := post_messages env conversationId content (fresh_world d) in
  let turn := {| p_role := PUser; p_content := trimmedContent |} in
  (exists tr c, snd out = inl (Some (EvCreate (prompt conversationId trimmedContent d) :: tr, c)))
  /\ (exists h1 h2,
        prompt conversationId trimmedContent d
        = {| p_role := PSystem; p_content := DEFAULT_INSTRUCTIONS |}
            :: (h1 ++ turn :: h2) ++ [turn]
        /\ map prompt_of (history conversationId trimmedContent d) = h1 ++ turn :: h2)
  /\ (forall h, In h (history conversationId trimmedContent d) <->
                exists m, In m (messages (after_setup conversationId trimmedContent d))
                          /\ m_conversation_id m = conversationId
                          /\ m_id m <> uuid2 env
                          /\ h = {| role_of := m_role m; content := m_content m |}).
Proof.
  intros Ha Hne. cbv zeta.
  assert (Hh : forall h, In h (history conversationId trimmedContent d) <->
                exists m, In m (messages (after_setup conversationId trimmedContent d))
                          /\ m_conversation_id m = conversationId
                          /\ m_id m <> uuid2 env
                          /\ h = {| role_of := m_role m; content := m_content m |}).
  { intro h. unfold history, select_history. rewrite in_map_iff. split.
    - intros (m & <- & Hin). apply In_order_by, filter_In in Hin as [Hin Hp].
      apply andb_prop in Hp as [H1 H2]. apply eqb_eq in H1.
      exists m. repeat split; auto. intro E. rewrite E, eqb_refl in H2. discriminate.
    - intros (m & Hin & H1 & H2 & ->). exists m. split; [reflexivity|].
      apply In_order_by, filter_In. split; [assumption|].
      rewrite H1, eqb_refl, (eqb_neq H2). reflexivity. }
  split; [|split; [|exact Hh]].
  - destruct (send_summary Ha) as ((c & Ht) & _). unfold client_trace in Ht. eauto.
  - assert (Hin : In {| role_of := User; content := trimmedContent |}
                     (history conversationId trimmedContent d)).
    { apply Hh. exists (user_row conversationId trimmedContent d).
      destruct (after_setup_rows conversationId trimmedContent d) as [-> _].
      repeat split; auto. apply in_or_app. right. now left. }
    apply (in_map prompt_of) in Hin. apply in_split in Hin as (h1 & h2 & Hs).
    exists h1, h2. split; [|exact Hs].
    unfold prompt, build_messages. simpl. now rewrite Hs.
Qed.

End Pipeline.

(** ** Concrete requests, settled by evaluation *)

Section Scenarios.

Import OpenAIStream Store Chats Scenario.

(** Closed statements are settled by evaluation, conjunct by conjunct. *)
Ltac evaluate :=
  repeat match goal with |- _ /\ _ => split end; vm_compute; reflexivity.

Lemma hello_accepted fails provider :
  fails SelectConversationId = None ->
  fails InsertUserMessage = None ->
  fails InsertAssistantMessage = None ->
  fails TouchConversation = None ->
  fails SelectHistory = None ->
  accepted (request fails provider) (lit "c1") hello (lit "Hello") store1.
Proof.
  intros H1 H2 H3 H4 H5. unfold accepted. simpl.
  repeat split; try assumption; try reflexivity. discriminate.
Defined.

(** C1, the claim as stated fails: the generation succeeds, the update in
    [onDone] fails, and the client receives an error event. *)
Lemma storage_failure_decides_event :
  let env := request sent_update_locked says_hello in
  let out := post_messages env (lit "c1") hello (fresh_world store1) in
  generation_failure (provider env (prompt env (lit "c1") (lit "Hello") store1)) = None
  /\ events (res (fst out))
     = [SseChunk (lit "Hel"); SseChunk (lit "lo"); SseError unavailable_error]
  /\ filter is_done_event (events (res (fst out))) = [].
Proof. cbv zeta. evaluate. Qed.

Lemma finalization_failure_reaches_client_witness :
  let env := request sent_update_locked says_hello in
  let out := post_messages env (lit "c1") hello (fresh_world store1) in
  filter is_terminal_event (events (res (fst out))) = [SseError unavailable_error]
  /\ (exists rows a',
        messages (db (fst out)) = rows ++ [a']
        /\ (m_id a', m_conversation_id a', m_role a', m_content a', m_status a',
            m_error_message a', m_created_at a')
           = (lit "assistant-1", lit "c1", Assistant, [], Failed,
              Some unavailable_error, lit "2024-05-01T10:05:00.000Z")).
Proof.
  cbv zeta.
  pose proof (proj2 (proj2 (@finalization_failure_reaches_client
                              (request sent_update_locked says_hello) (lit "c1") hello
                              (lit "Hello") store1
                              (hello_accepted sent_update_locked says_hello
                                 eq_refl eq_refl eq_refl eq_refl eq_refl)))
                locked eq_refl eq_refl eq_refl) as (_ & H2 & _ & H4 & _).
  split; [exact H2|exact H4].
Defined.

(** C2, the claim as stated fails: the generation yields two fragments
    and completes with a non-empty accumulation, the update that stores
    the reply fails, and the chunk events are followed by an error event,
    not by a done event. *)
Lemma completed_generation_without_done_event :
  let env := request sent_update_locked says_hi in
  let out := post_messages env (lit "c1") hello (fresh_world store1) in
  provider env (prompt env (lit "c1") (lit "Hello") store1)
  = CreateStream [Some (lit "Hi"); Some (lit "!")] StreamDone
  /\ List.concat (fragments [Some (lit "Hi"); Some (lit "!")]) = lit "Hi!"
  /\ events (res (fst out))
     = [SseChunk (lit "Hi"); SseChunk (lit "!"); SseError unavailable_error]
  /\ filter is_done_event (events (res (fst out))) = [].
Proof. cbv zeta. evaluate. Qed.

(** A double failure: the generation fails after one fragment and the
    update in [onError] throws as well; the error event is never written,
    so the stream carries the chunk and no terminal event. *)
Lemma failed_generation_without_error_event :
  let env := request failed_update_locked rate_limited_after_hi in
  let out := post_messages env (lit "c1") hello (fresh_world store1) in
  generation_failure (provider env (prompt env (lit "c1") (lit "Hello") store1))
  = Some (ErrorObj (lit "429 rate limit reached"))
  /\ events (res (fst out)) = [SseChunk (lit "Hi")]
  /\ List.length (filter is_error_event (events (res (fst out)))) = 0.
Proof. cbv zeta. evaluate. Qed.

Lemma stream_events_in_order_witness :
  events (res (fst (post_messages (request healthy says_hello) (lit "c1") hello
                      (fresh_world store1))))
  = [SseChunk (lit "Hel"); SseChunk (lit "lo"); SseDone (lit "assistant-1") (lit "Hello")]
  /\ events (res (fst (post_messages (request sent_update_locked says_hi) (lit "c1")
                         hello (fresh_world store1))))
     = [SseChunk (lit "Hi"); SseChunk (lit "!"); SseError unavailable_error]
  /\ events (res (fst (post_messages (request healthy rate_limited_after_hi) (lit "c1")
                         hello (fresh_world store1))))
     = [SseChunk (lit "Hi"); SseError busy_error].
Proof.
  split; [|split].
  - exact (proj1 (@stream_events_in_order (request healthy says_hello) (lit "c1") hello
                    (lit "Hello") store1
                    (hello_accepted healthy says_hello
                       eq_refl eq_refl eq_refl eq_refl eq_refl))
             [Some (lit "Hel"); None; Some []; Some (lit "lo")] eq_refl
             ltac:(discriminate) eq_refl).
  - exact (proj1 (proj1 (proj2 (@stream_events_in_order
                                  (request sent_update_locked says_hi) (lit "c1") hello
                                  (lit "Hello") store1
                                  (hello_accepted sent_update_locked says_hi
                                     eq_refl eq_refl eq_refl eq_refl eq_refl)))
                    [Some (lit "Hi"); Some (lit "!")] locked eq_refl
                    ltac:(discriminate) eq_refl eq_refl)).
  - exact (proj1 (proj2 (proj2 (@stream_events_in_order
                                  (request healthy rate_limited_after_hi)
                                  (lit "c1") hello (lit "Hello") store1
                                  (hello_accepted healthy rate_limited_after_hi
                                     eq_refl eq_refl eq_refl eq_refl eq_refl)))
                    (ErrorObj (lit "429 rate limit reached")) eq_refl eq_refl)).
Defined.

Lemma setup_all_or_nothing_witness :
  let env := request placeholder_insert_fails says_hello in
  let out := post_messages env (lit "c1") hello (fresh_world store1) in
  (statusCode (res (fst out)), body (res (fst out)))
  = (500%N, Some (JsonError (lit "Failed to process message")))
  /\ events (res (fst out)) = []
  /\ conversations (db (fst out)) = conversations store1
  /\ messages (db (fst out)) = messages store1
  /\ last_insert_rowid (db (fst out)) = 1%N
  /\ snd out = inl None.
Proof.
  cbv zeta.
  exact (proj2 (proj1 (proj2 (@setup_all_or_nothing
                                (request placeholder_insert_fails says_hello)
                                (lit "c1") hello (lit "Hello") store1
                                eq_refl eq_refl ltac:(discriminate)))
                  (fun H => match proj1 (proj2 H) in _ = o
                                  return match o with Some _ => True | None => False end
                            with eq_refl => I end))).
Defined.

(** C4, the rule as stated fails: the message holds both "rate limit" and
    the longer "insufficient_quota"; the longest match would give the
    quota message, the code gives the busy message. *)
Lemma first_rule_beats_longest_match :
  let run := createAIStream (note "chunk") (note "error") (note "done")
               out_of_quota never (lit "Hello")
               {| instructions := None; conversationHistory := None |} [] in
  filter is_terminal (trace (fst run)) = [EvError busy_error]
  /\ caller (fst run) = [("error"%string, busy_error)]
  /\ spec_longest_match translation_rules quota_message = quota_error
  /\ JS.eqb busy_error quota_error = false.
Proof. cbv zeta. evaluate. Qed.

Lemma failure_translated_once_witness :
  let run := createAIStream (note "chunk") (note "error") (note "done")
               rate_limited_after_hi never (lit "Hello")
               {| instructions := None; conversationHistory := None |} [] in
  filter is_terminal (trace (fst run)) = [EvError busy_error]
  /\ snd run = Resolved.
Proof.
  cbv zeta.
  pose proof (@failure_translated_once _ (note "chunk") (note "error") (note "done")
                rate_limited_after_hi never (lit "Hello")
                {| instructions := None; conversationHistory := None |} []
                (ErrorObj (lit "429 rate limit reached"))
                (fun _ => eq_refl) (fun _ _ => eq_refl) (fun _ _ => eq_refl) eq_refl)
    as (H1 & H2 & _).
  split; [exact H1|exact H2].
Defined.

Lemma empty_response_is_error_witness :
  filter is_callback
    (trace (fst (createAIStream (note "chunk") (note "error") (note "done")
                   says_nothing never (lit "Hello")
                   {| instructions := None; conversationHistory := None |} [])))
  = [EvError unavailable_error].
Proof.
  exact (proj2 (proj1 (empty_response_is_error (request healthy says_nothing))
                  _ (note "chunk") (note "error") (note "done")
                  says_nothing never (lit "Hello")
                  {| instructions := None; conversationHistory := None |} [])
           (fun _ => eq_refl) [None; Some []] eq_refl eq_refl).
Defined.

(** A run of letters followed by one space: [trim] removes the space. *)
Lemma trim_padded n :
  trim (repeat 97%N (S n) ++ [32%N]) = repeat 97%N (S n).
Proof.
  unfold trim, trimEnd.
  change (trimStart (repeat 97%N (S n) ++ [32%N])) with (repeat 97%N (S n) ++ [32%N]).
  rewrite rev_app_distr, rev_repeat.
  change (trimStart (rev [32%N] ++ repeat 97%N (S n))) with (repeat 97%N (S n)).
  apply rev_repeat.
Qed.

Lemma validate_padded :
  validate (VString padded) = inl (repeat 97%N (N.to_nat 10000)).
Proof.
  unfold padded.
  destruct (N.to_nat 10000) as [|n] eqn:E.
  - apply (f_equal N.of_nat) in E. rewrite N2Nat.id in E. discriminate E.
  - unfold validate.
    change (value_truthy (VString (repeat 97%N (S n) ++ [32%N]))) with true.
    change (typeof_string (VString (repeat 97%N (S n) ++ [32%N]))) with true.
    change (string_of (VString (repeat 97%N (S n) ++ [32%N])))
      with (repeat 97%N (S n) ++ [32%N]).
    cbv beta iota delta [negb orb]. rewrite trim_padded, repeat_length, <- E, N2Nat.id.
    reflexivity.
Qed.

(** C6, the claim as stated fails: a text of 10,001 code units whose
    last one is a space passes validation and is answered with the
    stream, not with a 400. *)
Lemma padded_text_is_accepted :
  let out := post_messages (request healthy says_hello) (lit "c1") (VString padded)
               (fresh_world store1) in
  N.of_nat (List.length padded) = 10001%N
  /\ validate (VString padded) = inl (repeat 97%N (N.to_nat 10000))
  /\ statusCode (res (fst out)) = 200%N.
Proof.
  cbv zeta. split; [|split].
  - unfold padded. rewrite length_app, repeat_length, Nat2N.inj_add, N2Nat.id. reflexivity.
  - exact validate_padded.
  - apply (@accepted_status (request healthy says_hello) (lit "c1") (VString padded)
             (repeat 97%N (N.to_nat 10000)) store1).
    unfold accepted. split; [exact validate_padded|].
    repeat split; try reflexivity. discriminate.
Qed.

(** C7: PATCH and DELETE on an identifier that does not exist answer 200
    with [{ id: lastInsertRowid }], not 404; on one that exists the body
    carries [lastInsertRowid] (here 0), not the identifier. *)
Example patch_and_delete_answer_200 :
  let env := request healthy says_hello in
  let patched := express (patch_chat env (lit "no-such-id") (lit "Renamed"))
                   (fresh_world store1) in
  let deleted := express (delete_chat env (lit "no-such-id")) (fresh_world store1) in
  let renamed := express (patch_chat env (lit "c1") (lit "Renamed")) (fresh_world store1) in
  let found := express (get_chat env (lit "no-such-id")) (fresh_world store1) in
  get_conversation (lit "no-such-id") store1 = None
  /\ (statusCode (res patched), body (res patched)) = (200%N, Some (JsonId 0))
  /\ (statusCode (res deleted), body (res deleted)) = (200%N, Some (JsonId 0))
  /\ (statusCode (res renamed), body (res renamed)) = (200%N, Some (JsonId 0))
  /\ map c_title (conversations (db renamed)) = [lit "Renamed"]
  /\ (statusCode (res found), body (res found)) = (404%N, Some (JsonError (lit "Not found"))).
Proof. cbv zeta. evaluate. Qed.



Lemma user_message_before_reply_witness :
  let env := request healthy says_hello in
  let out := post_messages env (lit "c1") hello (fresh_world store1) in
  exists l1 u l2 a l3,
    body (res (express (get_messages env (lit "c1")) (fresh_world (db (fst out)))))
    = Some (JsonMessages (l1 ++ u :: l2 ++ a :: l3))
    /\ (m_id u, m_role u) = (lit "user-1", User)
    /\ (m_id a, m_role a) = (lit "assistant-1", Assistant)
    /\ m_created_at u = m_created_at a.
Proof.
  cbv zeta.
  exact (@user_message_before_reply (request healthy says_hello) (lit "c1") hello
           (lit "Hello") store1 (request healthy says_hello)
           (hello_accepted healthy says_hello eq_refl eq_refl eq_refl eq_refl eq_refl)
           eq_refl _ (or_intror eq_refl)).
Defined.

Lemma prompt_repeats_user_message_witness :
  let env := request healthy says_hello in
  let turn := {| p_role := PUser; p_content := lit "Hello" |} in
  exists h1 h2,
    prompt env (lit "c1") (lit "Hello") store1
    = {| p_role := PSystem; p_content := DEFAULT_INSTRUCTIONS |}
        :: (h1 ++ turn :: h2) ++ [turn]
    /\ map prompt_of (history env (lit "c1") (lit "Hello") store1) = h1 ++ turn :: h2.
Proof.
  cbv zeta.
  exact (proj1 (proj2 (@prompt_repeats_user_message (request healthy says_hello)
                         (lit "c1") hello (lit "Hello") store1
                         (hello_accepted healthy says_hello
                            eq_refl eq_refl eq_refl eq_refl eq_refl)
                         ltac:(discriminate)))).
Defined.

Example prompt_of_hello :
  prompt (request healthy says_hello) (lit "c1") (lit "Hello") store1
  = [ {| p_role := PSystem; p_content := DEFAULT_INSTRUCTIONS |};
      {| p_role := PUser; p_content := lit "Hello" |};
      {| p_role := PUser; p_content := lit "Hello" |} ].
Proof. vm_compute. reflexivity. Qed.

End Scenarios.

(** * Further properties of the generation client *)

Section Forwarding.

Import OpenAIStream.

Variable C : Type.
Variables onChunk onError onDone : jsstring -> C -> C * option thrown.
Variable provider : list prompt_message -> create_result.
Variable cancel_during : nat -> bool.

Local Abbreviation state := (state C).
Local Abbreviation catch_block := (catch_block onError).
Local Abbreviation after_loop := (after_loop onError onDone).
Local Abbreviation for_await := (for_await onChunk onError onDone cancel_during).
Local Abbreviation createAIStream :=
  (createAIStream onChunk onError onDone provider cancel_during).

(** What a part of an invocation adds to the callbacks of the trace, in
    the order of the calls. *)
Definition adds (st st' : state) (calls : list event) : Prop :=
  filter is_callback (trace st') = filter is_callback (trace st) ++ calls.

(** How the callbacks of an invocation can end after the chunks: with
    nothing, with [onError], or, once every fragment was forwarded, with
    [onDone fullText], after which [onError] may still follow. *)
Definition closes (fullText : jsstring) (complete : Prop) (T : list event) : Prop :=
  T = []
  \/ (exists m, T = [EvError m])
  \/ (complete /\ (T = [EvDone fullText] \/ exists m, T = [EvDone fullText; EvError m])).

Lemma adds_refl st : adds st st [].
Proof. unfold adds. now rewrite app_nil_r. Qed.

Lemma adds_await n (st : state) : adds st (await cancel_during n st) [].
Proof.
  unfold await, cleanup, adds. destruct (cancel_during n); [|now rewrite app_nil_r].
  simpl. now rewrite filter_app.
Qed.

Lemma adds_trans st1 st2 st3 l1 l2 :
  adds st1 st2 l1 -> adds st2 st3 l2 -> adds st1 st3 (l1 ++ l2).
Proof. unfold adds. intros H1 H2. now rewrite H2, H1, app_assoc. Qed.

Lemma adds_call cb e arg (st : state) :
  adds st (fst (call cb e arg st)) (filter is_callback [e]).
Proof.
  unfold call, adds. destruct (cb arg (caller st)) as [s' r]. simpl trace.
  now rewrite filter_app.
Qed.

Lemma adds_catch_block e (st : state) :
  exists T, adds st (fst (catch_block e st)) T /\ (T = [] \/ exists m, T = [EvError m]).
Proof.
  unfold OpenAIStream.catch_block.
  destruct (cancelled st); [exists []; split; [apply adds_refl|now left]|].
  cbv zeta. set (st1 := record _ st).
  assert (H1 : adds st st1 []).
  { unfold adds, st1, record. simpl trace. rewrite filter_app. reflexivity. }
  pose proof (adds_call onError (EvError (friendlyMessage (error_message e)))
                (friendlyMessage (error_message e)) st1) as H2.
  exists [EvError (friendlyMessage (error_message e))]. split; [|right; eauto].
  destruct (call onError _ _ st1) as [st' [x|]]; exact (adds_trans H1 H2).
Qed.

Lemma adds_after_loop fullText (st : state) :
  exists T, adds st (fst (after_loop fullText st)) T
            /\ closes fullText (cancelled st = false) T.
Proof.
  unfold OpenAIStream.after_loop, closes.
  destruct (cancelled st); simpl negb; cbv iota;
    [exists []; split; [apply adds_refl|now left]|].
  destruct (truthy fullText); simpl negb; cbv iota.
  - pose proof (adds_call onDone (EvDone fullText) fullText st) as Hc.
    destruct (call onDone _ _ st) as [st' [x|]]; simpl fst in Hc.
    + destruct (adds_catch_block x st') as (T & HT & [->|[m ->]]).
      * exists [EvDone fullText]. split; [exact (adds_trans Hc HT)|].
        right. right. split; [reflexivity|now left].
      * exists [EvDone fullText; EvError m]. split; [exact (adds_trans Hc HT)|].
        right. right. split; [reflexivity|right; eauto].
    + exists [EvDone fullText]. split; [exact Hc|].
      right. right. split; [reflexivity|now left].
  - destruct (adds_catch_block (ErrorObj (lit "No response from AI")) st)
      as (T & HT & H).
    exists T. split; [exact HT|]. destruct H as [->|H]; [now left|right; now left].
Qed.

Lemma closes_of_failure fullText complete T :
  T = [] \/ (exists m, T = [EvError m]) -> closes fullText complete T.
Proof. intros [H|H]; [now left|right; now left]. Qed.

Lemma adds_for_await chunks fin : forall n fullText (st : state),
  exists k T,
    adds st (fst (for_await chunks fin n fullText st))
      (map EvChunk (firstn k (fragments chunks)) ++ T)
    /\ closes (fullText ++ List.concat (fragments chunks))
         (firstn k (fragments chunks) = fragments chunks) T.
Proof.
  induction chunks as [|chunk rest IH]; intros n fullText st; simpl for_await.
  - pose proof (adds_await n st) as Ha. set (st1 := await cancel_during n st) in *.
    exists 0. simpl. rewrite app_nil_r. destruct fin as [|e].
    + destruct (adds_after_loop fullText st1) as (T & HT & Hc).
      exists T. split; [exact (adds_trans Ha HT)|].
      destruct Hc as [->|[H|[_ H]]]; [now left|right; now left|].
      right. right. now split.
    + destruct (adds_catch_block e st1) as (T & HT & H).
      exists T. split; [exact (adds_trans Ha HT)|now apply closes_of_failure].
  - pose proof (adds_await n st) as Ha. set (st1 := await cancel_during n st) in *.
    destruct (cancelled st1) eqn:E.
    + destruct (adds_after_loop fullText st1) as (T & HT & Hc).
      exists 0, T. split; [exact (adds_trans Ha HT)|].
      destruct Hc as [->|[H|[Hc _]]]; [now left|right; now left|congruence].
    + destruct chunk as [[|c t]|].
      * destruct (IH (S n) fullText st1) as (k & T & Hk & Hc).
        exists k, T. split; [exact (adds_trans Ha Hk)|exact Hc].
      * pose proof (adds_call onChunk (EvChunk (c :: t)) (c :: t) st1) as Hcall.
        cbn [fragments].
        destruct (call onChunk _ _ st1) as [st2 [x|]]; simpl fst in Hcall.
        -- destruct (adds_catch_block x st2) as (T & HT & H).
           exists 1, T. split; [|now apply closes_of_failure].
           exact (adds_trans Ha (adds_trans Hcall HT)).
        -- destruct (IH (S n) (fullText ++ c :: t) st2) as (k & T & Hk & Hc).
           exists (S k), T. split.
           ++ exact (adds_trans Ha (adds_trans Hcall Hk)).
           ++ cbn [List.concat]. rewrite <- app_assoc in Hc.
              destruct Hc as [->|[H|[Hall H]]]; [now left|right; now left|].
              right. right. split; [|exact H]. cbn [firstn]. now rewrite Hall.
      * destruct (IH (S n) fullText st1) as (k & T & Hk & Hc).
        exists k, T. split; [exact (adds_trans Ha Hk)|exact Hc].
Qed.

(** X1.  Whatever the callbacks do and whenever the cleanup function is
    invoked, the callbacks of an invocation are, in the order of the
    calls: [onChunk] for a prefix of the provider's non-empty fragments,
    in their order (nothing is reordered, merged, repeated or invented);
    then nothing, or [onError], or, only once every fragment was
    forwarded, one [onDone] with the concatenation of the fragments,
    which [onError] may still follow.  So [onDone] is called at most
    once, after all the chunks, and no [onChunk] follows [onDone] or
    [onError]. *)
Theorem chunks_forwarded_in_order userMessage options s :
  let r := provider (build_messages userMessage options) in
  let tr := trace (fst (createAIStream userMessage options s)) in
  let fullText := List.concat (delivered r) in
  exists k T,
    filter is_callback tr = map EvChunk (firstn k (delivered r)) ++ T
    /\ (T = []
        \/ (exists m, T = [EvError m])
        \/ (firstn k (delivered r) = delivered r
            /\ (T = [EvDone fullText] \/ exists m, T = [EvDone fullText; EvError m]))).
Proof.
  cbv zeta. unfold OpenAIStream.createAIStream.
  set (st0 := record _ _).
  pose proof (adds_await 0 st0) as Ha. set (st1 := await cancel_during 0 st0) in *.
  assert (H0 : filter is_callback (trace st0) = []) by reflexivity.
  destruct (provider _) as [e|chunks fin]; simpl delivered.
  - destruct (adds_catch_block e st1) as (T & HT & H).
    pose proof (adds_trans Ha HT) as H1. unfold adds in H1. rewrite H0 in H1.
    exists 0, T. split; [exact H1|]. destruct H as [->|H]; [now left|right; now left].
  - destruct (cancelled st1).
    + unfold adds in Ha. rewrite H0 in Ha. exists 0, []. split; [exact Ha|now left].
    + destruct (adds_for_await chunks fin 1 [] st1) as (k & T & Hk & Hc).
      pose proof (adds_trans Ha Hk) as H1. unfold adds in H1. rewrite H0 in H1.
      exists k, T. split; [exact H1|exact Hc].
Qed.

End Forwarding.

Section CancelledAt.

Import OpenAIStream.

Variable C : Type.
Variables onChunk onError onDone : jsstring -> C -> C * option thrown.
Variable provider : list prompt_message -> create_result.
Variable cancel_during : nat -> bool.
Hypothesis onChunk_returns : forall c s, snd (onChunk c s) = None.

Local Abbreviation state := (state C).
Local Abbreviation for_await := (for_await onChunk onError onDone cancel_during).
Local Abbreviation createAIStream :=
  (createAIStream onChunk onError onDone provider cancel_during).

Lemma callbacks_snoc (tr : list event) e :
  filter is_callback (tr ++ [e]) = filter is_callback tr ++ (if is_callback e then [e] else []).
Proof. now rewrite filter_app. Qed.

Lemma for_await_cancelled_at chunks fin : forall k n fullText (st : state),
  cancelled st = false ->
  (forall j, j < k -> cancel_during (n + j) = false) ->
  cancel_during (n + k) = true ->
  k <= List.length chunks ->
  let r := for_await chunks fin n fullText st in
  filter is_callback (trace (fst r))
  = filter is_callback (trace st) ++ map EvChunk (fragments (firstn k chunks))
  /\ snd r = Resolved
  /\ caller (fst r)
     = fold_left (fun s c => fst (onChunk c s)) (fragments (firstn k chunks)) (caller st).
Proof.
  induction chunks as [|chunk rest IH]; intros k n fullText st Hc Hbefore Hat Hk;
    cbv zeta; simpl for_await; unfold await.
  - assert (k = 0) by (simpl in Hk; lia). subst k.
    rewrite Nat.add_0_r in Hat. rewrite Hat. simpl.
    destruct fin; unfold after_loop, catch_block; simpl;
      rewrite callbacks_snoc; simpl; rewrite !app_nil_r; auto.
  - destruct k as [|k].
    + rewrite Nat.add_0_r in Hat. rewrite Hat. simpl.
      unfold after_loop; simpl. rewrite callbacks_snoc. simpl. rewrite !app_nil_r. auto.
    + assert (Hn : cancel_during n = false)
        by (rewrite <- (Nat.add_0_r n); apply Hbefore; lia).
      rewrite Hn, Hc.
      assert (Hb' : forall j, j < k -> cancel_during (S n + j) = false).
      { intros j Hj. replace (S n + j) with (n + S j) by lia. apply Hbefore. lia. }
      assert (Ha' : cancel_during (S n + k) = true).
      { replace (S n + k) with (n + S k) by lia. exact Hat. }
      simpl in Hk. apply le_S_n in Hk.
      destruct chunk as [[|c t]|]; cbn [firstn fragments];
        try (now apply (IH k (S n) fullText st Hc Hb' Ha' Hk)).
      destruct (call_trace onChunk (EvChunk (c :: t)) (c :: t) st) as (Ht & Hf & Hcl & Hr).
      rewrite onChunk_returns in Hr.
      destruct (call onChunk (EvChunk (c :: t)) (c :: t) st) as [st' r]. simpl in *. subst r.
      destruct (IH k (S n) (fullText ++ c :: t) st') as (H1 & H2 & H3);
        try assumption; [congruence|].
      rewrite H1, H2, H3, Ht, Hcl, callbacks_snoc. simpl. rewrite <- app_assoc.
      repeat split; reflexivity.
Qed.

(** X2.  When the cleanup function is first invoked while the invocation
    waits for the step of the stream that follows its first [k] chunks
    (and [onChunk] returns normally), the callbacks that fire are exactly
    the [onChunk] calls for the fragments among those [k] chunks: no
    later fragment, no [onDone], no [onError] even if the stream then
    fails; and the promise resolves. *)
Theorem cancel_lets_earlier_chunks_through userMessage options s chunks fin k :
  provider (build_messages userMessage options) = CreateStream chunks fin ->
  (forall j, j <= k -> cancel_during j = false) ->
  cancel_during (S k) = true ->
  k <= List.length chunks ->
  let r := createAIStream userMessage options s in
  filter is_callback (trace (fst r)) = map EvChunk (fragments (firstn k chunks))
  /\ snd r = Resolved
  /\ caller (fst r) = fold_left (fun s c => fst (onChunk c s)) (fragments (firstn k chunks)) s.
Proof.
  intros Hp Hbefore Hat Hk. cbv zeta. unfold OpenAIStream.createAIStream, await.
  rewrite (Hbefore 0) by lia. rewrite Hp. simpl cancelled. cbv iota.
  apply (@for_await_cancelled_at chunks fin k 1 []); auto.
Qed.

End CancelledAt.

(** * Further properties of the send route *)

Section SendRoute.

Import OpenAIStream Store Chats.

Variable env : environment.

(** A request answered before any stream: one JSON error body, the
    response ended, no event-stream header, the rows of both tables as
    they were. *)
Definition answered_plainly (d : database)
    (out : world * (option (list event * completion) + thrown)) : Prop :=
  (exists message, body (res (fst out)) = Some (JsonError message))
  /\ In (statusCode (res (fst out))) [400; 404; 500]%N
  /\ headers (res (fst out)) = []
  /\ events (res (fst out)) = []
  /\ ended (res (fst out)) = true
  /\ (conversations (db (fst out)) = conversations d
      /\ messages (db (fst out)) = messages d)
  /\ snd out = inl None.

Ltac now_plain :=
  simpl; unfold answered_plainly; simpl; repeat split; eauto; tauto.

Lemma send_outcomes conversationId content d :
  let out := post_messages env conversationId content (fresh_world d) in
  (exists trimmedContent, accepted env conversationId content trimmedContent d)
  \/ answered_plainly d out.
Proof.
  cbv zeta. destruct (validate content) as [t|m] eqn:Hv.
  2:{ right. unfold post_messages. rewrite Hv. now_plain. }
  destruct (fails env SelectConversationId) as [x|] eqn:H1;
    [right; step_handler Hv; rewrite H1; now_plain|].
  destruct (get_conversation conversationId d) as [c|] eqn:Hc;
    [|right; step_handler Hv; rewrite H1; simpl; rewrite Hc; now_plain].
  destruct (fails env InsertUserMessage) as [x|] eqn:H2;
    [right; step_handler Hv; rewrite H1; simpl; rewrite Hc; simpl;
     rewrite H2; now_plain|].
  destruct (fails env InsertAssistantMessage) as [x|] eqn:H3;
    [right; step_handler Hv; rewrite H1; simpl; rewrite Hc; simpl;
     rewrite H2; simpl; rewrite H3; now_plain|].
  destruct (fails env TouchConversation) as [x|] eqn:H4;
    [right; step_handler Hv; rewrite H1; simpl; rewrite Hc; simpl;
     rewrite H2; simpl; rewrite H3; simpl; rewrite H4; now_plain|].
  destruct (fails env SelectHistory) as [x|] eqn:H5;
    [right; step_handler Hv; rewrite H1; simpl; rewrite Hc; simpl;
     rewrite H2; simpl; rewrite H3; simpl; rewrite H4; simpl; rewrite H5; now_plain|].
  left. exists t. unfold accepted. rewrite Hc. repeat split; auto. discriminate.
Qed.

(** What each of the three callbacks preserves, the stream preserves. *)
Lemma stream_keeps (P : world -> Prop) assistantMessageId :
  (forall c w, P w -> P (fst (callback (onChunk c) w))) ->
  (forall m w, P w -> P (fst (callback (onError env assistantMessageId m) w))) ->
  (forall t w, P w -> P (fst (callback (onDone env assistantMessageId t) w))) ->
  forall trimmedContent conversationHistory w,
    P w -> P (fst (stream env trimmedContent assistantMessageId conversationHistory w)).
Proof.
  intros HC HE HD trimmedContent conversationHistory w Hw. unfold stream.
  pose proof (@kept_by_createAIStream world
                (fun chunk => callback (onChunk chunk))
                (fun message => callback (onError env assistantMessageId message))
                (fun fullText => callback (onDone env assistantMessageId fullText))
                (provider env) (fun _ => false) P HC HE HD trimmedContent
                {| instructions := None; conversationHistory := Some conversationHistory |}
                w Hw) as K.
  now destruct (createAIStream _ _ _ _ _ _ _ _).
Qed.

Lemma accepted_world conversationId content trimmedContent d :
  accepted env conversationId content trimmedContent d ->
  fst (post_messages env conversationId content (fresh_world d))
  = fst (stream env trimmedContent (uuid2 env)
           (history env conversationId trimmedContent d)
           (streaming_world env conversationId trimmedContent d)).
Proof.
  intro Ha. rewrite (post_messages_accepted Ha). now destruct (stream _ _ _ _ _).
Qed.

(** X3.  A send to a conversation that does not exist is answered 404
    'Conversation not found' after the one SELECT that looks it up:
    nothing is written, no other statement runs, the provider is not
    called. *)
Theorem unknown_conversation_is_404 conversationId content trimmedContent d :
  validate content = inl trimmedContent ->
  fails env SelectConversationId = None ->
  get_conversation conversationId d = None ->
  let out := post_messages env conversationId content (fresh_world d) in
  (statusCode (res (fst out)), body (res (fst out)))
  = (404%N, Some (JsonError (lit "Conversation not found")))
  /\ db (fst out) = d
  /\ journal (fst out) = [SelectConversationId]
  /\ events (res (fst out)) = []
  /\ snd out = inl None.
Proof.
  intros Hv H1 Hc. cbv zeta. step_handler Hv. rewrite H1. simpl. rewrite Hc. simpl.
  repeat split.
Qed.

(** X4.  Whatever the content, the provider and the storage failures, the
    events of a response are chunk events followed by at most one
    terminal event: never two terminal events, never a chunk after one. *)
Theorem one_terminal_event_at_most_and_last conversationId content d :
  let sent := events (res (fst (post_messages env conversationId content (fresh_world d)))) in
  exists cs T,
    sent = map SseChunk cs ++ T
    /\ (T = [] \/ exists t, T = [t] /\ is_terminal_event t = true).
Proof.
  cbv zeta. destruct (send_outcomes conversationId content d) as [[t Ha]|H].
  - destruct (send_summary Ha) as (_ & He & _). rewrite He.
    eexists _, _. split; [reflexivity|].
    unfold finalization, error_events.
    destruct (generation_failure _).
    + destruct (fails env MarkFailed); [now left|right; eauto].
    + destruct (fails env MarkSent).
      * destruct (fails env MarkFailed); [now left|right; eauto].
      * right; eauto.
  - destruct H as (_ & _ & _ & He & _). rewrite He. exists [], []. split; [reflexivity|now left].
Qed.

(** The response object during the stream. *)
Definition stream_response_invariant (w : world) : Prop :=
  statusCode (res w) = 200%N
  /\ body (res w) = None
  /\ headers (res w) = [("Content-Type", "text/event-stream");
                        ("Cache-Control", "no-cache");
                        ("Connection", "keep-alive")]%string
  /\ (ended (res w) = true <-> filter is_terminal_event (events (res w)) <> [])
  /\ (headersSent (res w) = true <-> events (res w) <> []).

Lemma stream_response_kept assistantMessageId :
  (forall c w, stream_response_invariant w ->
               stream_response_invariant (fst (callback (onChunk c) w)))
  /\ (forall m w, stream_response_invariant w ->
                  stream_response_invariant
                    (fst (callback (onError env assistantMessageId m) w)))
  /\ (forall t w, stream_response_invariant w ->
                  stream_response_invariant
                    (fst (callback (onDone env assistantMessageId t) w))).
Proof.
  assert (Hne : forall (l : list sse_event) e, l ++ [e] <> [])
    by (intros [|? ?] e; discriminate).
  split; [|split].
  - intros c w (H1 & H2 & H3 & H4 & H5).
    unfold callback, onChunk, write, with_res, stream_response_invariant. simpl.
    repeat split; auto; try (intros _; apply Hne).
    + rewrite filter_app. simpl. rewrite app_nil_r. apply H4.
    + rewrite filter_app. simpl. rewrite app_nil_r. apply H4.
  - intros m w (H1 & H2 & H3 & H4 & H5).
    unfold callback, onError, bind, logger, run, write, end_response, with_res,
      stream_response_invariant. simpl.
    destruct (fails env MarkFailed); simpl; [repeat split; auto; tauto|].
    repeat split; auto; try (intros _; apply Hne).
    rewrite filter_app. simpl. intros _ E. apply app_eq_nil in E as [_ E]. discriminate.
  - intros t w (H1 & H2 & H3 & H4 & H5).
    unfold callback, onDone, bind, logger, run, write, end_response, with_res,
      stream_response_invariant. simpl.
    destruct (fails env MarkSent); simpl; [repeat split; auto; tauto|].
    repeat split; auto; try (intros _; apply Hne).
    rewrite filter_app. simpl. intros _ E. apply app_eq_nil in E as [_ E]. discriminate.
Qed.

(** X5.  Once a send is accepted, the response keeps status 200, no JSON
    body and exactly the three event-stream headers; it is ended exactly
    when a terminal event has been written, and nothing is flushed before
    the first event.  So when the update in [onError] throws after a
    failed generation, the response is never ended. *)
Theorem stream_ends_with_terminal_event conversationId content trimmedContent d :
  accepted env conversationId content trimmedContent d ->
  let out := post_messages env conversationId content (fresh_world d) in
  let r := provider env (prompt env conversationId trimmedContent d) in
  stream_response_invariant (fst out)
  /\ (forall e x, generation_failure r = Some e -> fails env MarkFailed = Some x ->
                  ended (res (fst out)) = false).
Proof.
  intro Ha. cbv zeta.
  assert (Hi : stream_response_invariant
                 (fst (post_messages env conversationId content (fresh_world d)))).
  { rewrite (accepted_world Ha).
    destruct (stream_response_kept (uuid2 env)) as (HC & HE & HD).
    apply stream_keeps; try assumption.
    unfold stream_response_invariant, streaming_world. simpl.
    repeat split; auto; try discriminate; intro H; now elim H. }
  split; [exact Hi|].
  intros e x Hg Hf. destruct Hi as (_ & _ & _ & Hended & _).
  destruct (send_summary Ha) as (_ & He & _).
  unfold finalization, error_events in He. rewrite Hg, Hf, app_nil_r in He.
  destruct (ended _) eqn:E; [|reflexivity].
  exfalso. apply (proj1 Hended eq_refl). rewrite He. apply chunk_events_not_terminal.
Qed.

(** X6.  The event-stream headers are set only once the setup has
    succeeded: every other response carries none of them and no event. *)
Theorem sse_headers_only_after_setup conversationId content d :
  let out := post_messages env conversationId content (fresh_world d) in
  ((exists trimmedContent, accepted env conversationId content trimmedContent d)
   /\ headers (res (fst out)) = [("Content-Type", "text/event-stream");
                                 ("Cache-Control", "no-cache");
                                 ("Connection", "keep-alive")]%string
   /\ body (res (fst out)) = None)
  \/ ((forall trimmedContent, ~ accepted env conversationId content trimmedContent d)
      /\ headers (res (fst out)) = []
      /\ events (res (fst out)) = []
      /\ exists message, body (res (fst out)) = Some (JsonError message)).
Proof.
  cbv zeta. destruct (send_outcomes conversationId content d) as [[t Ha]|H].
  - left. split; [eauto|].
    assert (Hi : stream_response_invariant
                   (fst (post_messages env conversationId content (fresh_world d)))).
    { rewrite (accepted_world Ha).
      destruct (stream_response_kept (uuid2 env)) as (HC & HE & HD).
      apply stream_keeps; try assumption.
      unfold stream_response_invariant, streaming_world. simpl.
      repeat split; auto; try discriminate; intro H; now elim H. }
    destruct Hi as (_ & Hb & Hh & _). now split.
  - right. destruct H as (Hb & _ & Hh & He & _). repeat split; auto.
    intros t Ha.
    assert (Hi : body (res (fst (post_messages env conversationId content (fresh_world d))))
                 = None).
    { rewrite (accepted_world Ha).
      destruct (stream_response_kept (uuid2 env)) as (HC & HE & HD).
      apply (@stream_keeps stream_response_invariant (uuid2 env) HC HE HD).
      unfold stream_response_invariant, streaming_world. simpl.
      repeat split; auto; try discriminate; intro H; now elim H. }
    destruct Hb as [m Hb]. congruence.
Qed.

End SendRoute.

Section Placeholder.

Import OpenAIStream Store Chats.

Variable env : environment.
Hypothesis distinct_ids : uuid1 env <> uuid2 env.




End Placeholder.

(** * Trimming *)

Section Trim.

Lemma trimStart_head s c l : trimStart s = c :: l -> isWhiteSpace c = false.
Proof.
  induction s as [|a s IH]; simpl; [discriminate|].
  destruct (isWhiteSpace a) eqn:E; [exact IH|].
  intro H. injection H as <- _. exact E.
Qed.

Lemma trimStart_split s :
  exists p, s = p ++ trimStart s /\ forallb isWhiteSpace p = true.
Proof.
  induction s as [|a s (p & Hp & Hw)]; simpl; [now exists []|].
  destruct (isWhiteSpace a) eqn:E.
  - exists (a :: p). simpl. rewrite E, Hw. split; [now f_equal|reflexivity].
  - now exists [].
Qed.

Lemma trimStart_fixed s :
  (forall c l, s = c :: l -> isWhiteSpace c = false) -> trimStart s = s.
Proof.
  destruct s as [|a s]; simpl; [reflexivity|].
  intro H. now rewrite (H a s eq_refl).
Qed.

Lemma trimStart_nil s : trimStart s = [] <-> forallb isWhiteSpace s = true.
Proof.
  induction s as [|a s IH]; simpl; [tauto|].
  destruct (isWhiteSpace a); simpl; [exact IH|]. split; discriminate.
Qed.

Lemma forallb_rev (f : N -> bool) l : forallb f (rev l) = forallb f l.
Proof.
  induction l as [|a l IH]; simpl; [reflexivity|].
  rewrite forallb_app, IH. simpl. rewrite andb_true_r. apply andb_comm.
Qed.

(** [trim] removes a run of white space at each end and nothing else. *)
Lemma trim_split s :
  exists p q, s = p ++ trim s ++ q
              /\ forallb isWhiteSpace p = true /\ forallb isWhiteSpace q = true.
Proof.
  destruct (trimStart_split s) as (p & Hp & Hwp).
  destruct (trimStart_split (rev (trimStart s))) as (q & Hq & Hwq).
  exists p, (rev q). repeat split; [|assumption|now rewrite forallb_rev].
  unfold trim, trimEnd. rewrite <- rev_app_distr, <- Hq, rev_involutive. exact Hp.
Qed.

Lemma trim_first s c l : trim s = c :: l -> isWhiteSpace c = false.
Proof.
  intro H. destruct (trimStart_split (rev (trimStart s))) as (q & Hq & _).
  apply (f_equal (@rev N)) in Hq. rewrite rev_involutive, rev_app_distr in Hq.
  fold (trimEnd (trimStart s)) in Hq. fold (trim s) in Hq. rewrite H in Hq.
  simpl in Hq. now apply (@trimStart_head s _ _ Hq).
Qed.

Lemma trim_last s l c : trim s = l ++ [c] -> isWhiteSpace c = false.
Proof.
  unfold trim, trimEnd. intro H. apply (f_equal (@rev N)) in H.
  rewrite rev_involutive, rev_app_distr in H. simpl in H.
  now apply (@trimStart_head _ _ _ H).
Qed.

Lemma trim_nil s : trim s = [] <-> forallb isWhiteSpace s = true.
Proof.
  split.
  - intro H. destruct (trim_split s) as (p & q & Hs & Hp & Hq).
    rewrite H in Hs. rewrite Hs, forallb_app, Hp. exact Hq.
  - intro H. apply trimStart_nil in H. unfold trim, trimEnd. now rewrite H.
Qed.

Lemma trim_idempotent s : trim (trim s) = trim s.
Proof.
  unfold trim at 1. rewrite (trimStart_fixed (@trim_first s)).
  unfold trimEnd. rewrite trimStart_fixed; [apply rev_involutive|].
  intros c l H. apply (f_equal (@rev N)) in H. rewrite rev_involutive in H.
  simpl in H. now apply (@trim_last s _ _ H).
Qed.

End Trim.

Section StoredContent.

Import OpenAIStream Store Chats.

Variable env : environment.



(** X9.  A content that is not a string, or is the empty string, is
    answered 400 'Message content is required'; a non-empty string made
    of white space only is answered 400 'Message content cannot be
    empty'; in both cases nothing is executed on the store. *)
Theorem blank_content_is_rejected conversationId content d :
  let out := post_messages env conversationId content (fresh_world d) in
  (typeof_string content = false \/ content = VString [] ->
   (statusCode (res (fst out)), body (res (fst out)))
   = (400%N, Some (JsonError (lit "Message content is required")))
   /\ journal (fst out) = [] /\ db (fst out) = d)
  /\ (forall s, content = VString s -> s <> [] -> forallb isWhiteSpace s = true ->
      (statusCode (res (fst out)), body (res (fst out)))
      = (400%N, Some (JsonError (lit "Message content cannot be empty")))
      /\ journal (fst out) = [] /\ db (fst out) = d).
Proof.
  cbv zeta. split.
  - intro H.
    assert (Hv : validate content = inr (lit "Message content is required")).
    { unfold validate. destruct H as [H| ->]; [|reflexivity].
      now rewrite H, orb_true_r. }
    unfold post_messages. rewrite Hv. simpl. auto.
  - intros s -> Hne Hws.
    assert (Hv : validate (VString s) = inr (lit "Message content cannot be empty")).
    { unfold validate. destruct s as [|c s]; [congruence|].
      simpl value_truthy. simpl typeof_string. simpl string_of. cbn [negb orb].
      apply trim_nil in Hws. now rewrite Hws. }
    unfold post_messages. rewrite Hv. simpl. auto.
Qed.

End StoredContent.

(** * The conversation routes *)

From Stdlib Require Import Permutation Sorted.

(** ** The remaining routes of routes/chats.ts *)

Module Conversations.

Import OpenAIStream Store Chats.

Section StableSort.

Variable A : Type.
Variable le : A -> A -> bool.

(** ORDER BY over rows in rowid order: a row goes before the first row it
    does not come after, so rows with equal keys keep their rowid order. *)
Fixpoint insert_sorted (x : A) (l : list A) : list A :=
  match l with
  | [] => [x]
  | y :: r => if le x y then x :: l else y :: insert_sorted x r
  end.

Definition sort_stable (l : list A) : list A := fold_right insert_sorted [] l.

End StableSort.

(** ORDER BY updated_at DESC *)
Definition newer_first (x y : conversation) : bool :=
  JS.leb (c_updated_at y) (c_updated_at x).

(** ORDER BY created_at ASC *)
Definition older_first (x y : message) : bool :=
  JS.leb (m_created_at x) (m_created_at y).

(** SELECT * FROM conversations ORDER BY updated_at DESC *)
Definition select_conversations (d : database) : list conversation :=
  sort_stable newer_first (conversations d).

(** INSERT INTO conversations (id, title, created_at, updated_at) VALUES (?, ?, ?, ?) *)
Definition insert_conversation (id title created_at updated_at : jsstring) (d : database)
  : database * RunResult :=
  let rowid := next_rowid (map c_rowid (conversations d)) in
  let row := {| c_rowid := rowid; c_id := id; c_title := title;
                c_created_at := created_at; c_updated_at := updated_at |} in
  ({| conversations := conversations d ++ [row];
      messages := messages d;
      last_insert_rowid := rowid |},
   {| changes := 1; lastInsertRowid := rowid |}).

(** A statement of these two routes; [failure] is what it throws when it
    fails. *)
Definition all {A} (failure : option thrown) (f : database -> A) : M A :=
  fun w =>
    match failure with
    | Some e => (w, inr e)
    | None => (w, inl (f (db w)))
    end.

Definition run_insert (failure : option thrown) (f : database -> database * RunResult)
  : M RunResult :=
  fun w =>
    match failure with
    | Some e => (w, inr e)
    | None =>
        let '(d, r) := f (db w) in
        ({| db := d; res := res w; log := log w; journal := journal w |}, inl r)
    end.

(** [req.body.title || 'New Conversation'], for a body [{ title?: string }]. *)
Definition title_or_default (title : option jsstring) : jsstring :=
  match title with
  | Some ((_ :: _) as t) => t
  | _ => lit "New Conversation"
  end.

(** GET /api/chats: the value is the array handed to [res.json]. *)
Definition list_chats (failure : option thrown) : M (list conversation) :=
  logger (LogInfo "Listing all conversations") ;;;
  rows <- all failure select_conversations ;;
  ret rows.

(** POST /api/chats: the value is the [id] of the [{ id }] handed to
    [res.json]. *)
Definition create_chat (env : environment) (title : option jsstring)
    (failure : option thrown) : M jsstring :=
  logger (LogInfo "Creating new conversation") ;;;
  let id := uuid1 env in
  let now := now env in
  run_insert failure (insert_conversation id (title_or_default title) now now) ;;;
  ret id.

End Conversations.

(** ** Ordering of timestamps *)

Section Ordering.

Lemma leb_total a : forall b, JS.leb a b = false -> JS.leb b a = true.
Proof.
  induction a as [|x a IH]; intros [|y b]; simpl; try discriminate; try reflexivity.
  intro H. apply orb_false_elim in H as [H1 H2].
  destruct (N.ltb_spec x y); [discriminate|].
  destruct (N.eqb_spec x y) as [->|Hne].
  - simpl in H2. rewrite N.eqb_refl, (IH b H2). apply orb_true_r.
  - destruct (N.ltb_spec y x); [reflexivity|lia].
Qed.

Lemma leb_trans a : forall b c, JS.leb a b = true -> JS.leb b c = true -> JS.leb a c = true.
Proof.
  induction a as [|x a IH]; intros [|y b] [|z c]; simpl; try discriminate; try reflexivity.
  intros H1 H2.
  apply orb_true_iff in H1 as [H1|H1]; apply orb_true_iff in H2 as [H2|H2].
  - apply N.ltb_lt in H1, H2. assert (x < z)%N by lia.
    apply orb_true_iff. left. now apply N.ltb_lt.
  - apply andb_prop in H2 as [H2 _]. apply N.eqb_eq in H2. subst z.
    now rewrite H1.
  - apply andb_prop in H1 as [H1 _]. apply N.eqb_eq in H1. subst y.
    now rewrite H2.
  - apply andb_prop in H1 as [E1 H1]. apply andb_prop in H2 as [E2 H2].
    apply N.eqb_eq in E1, E2. subst y z.
    rewrite N.eqb_refl, (IH b c H1 H2). apply orb_true_r.
Qed.

End Ordering.

Section StableSortFacts.

Import Conversations.

Variable A : Type.
Variable le : A -> A -> bool.
Hypothesis le_total : forall x y, le x y = false -> le y x = true.
Hypothesis le_trans : forall x y z, le x y = true -> le y z = true -> le x z = true.

Lemma insert_sorted_perm x l : Permutation (insert_sorted le x l) (x :: l).
Proof.
  induction l as [|y l IH]; simpl; [reflexivity|].
  destruct (le x y); [reflexivity|].
  rewrite IH. apply perm_swap.
Qed.

Lemma sort_stable_perm l : Permutation (sort_stable le l) l.
Proof.
  induction l as [|x l IH]; simpl; [reflexivity|].
  rewrite insert_sorted_perm. now constructor.
Qed.

Lemma insert_sorted_sorted x l :
  StronglySorted (fun a b => le a b = true) l ->
  StronglySorted (fun a b => le a b = true) (insert_sorted le x l).
Proof.
  induction l as [|y l IH]; simpl; intro H.
  - constructor; constructor.
  - inversion H as [|? ? Hs Hf]; subst.
    destruct (le x y) eqn:E.
    + constructor; [assumption|]. constructor; [assumption|].
      eapply Forall_impl; [|exact Hf]. intros z Hz. now apply (le_trans E).
    + constructor; [now apply IH|].
      apply Forall_forall. intros z Hz.
      apply (Permutation_in _ (insert_sorted_perm x l)) in Hz.
      destruct Hz as [<-|Hz]; [now apply le_total|].
      rewrite Forall_forall in Hf. now apply Hf.
Qed.

Lemma sort_stable_sorted l :
  StronglySorted (fun a b => le a b = true) (sort_stable le l).
Proof.
  induction l as [|x l IH]; simpl; [constructor|]. now apply insert_sorted_sorted.
Qed.

End StableSortFacts.

Section ConversationRoutes.

Import OpenAIStream Store Chats Conversations.

Lemma order_by_created_at_stable l :
  order_by_created_at l = sort_stable older_first l.
Proof.
  induction l as [|x l IH]; simpl; [reflexivity|]. rewrite IH.
  generalize (sort_stable older_first l). intro s.
  induction s as [|y s IHs]; simpl; [reflexivity|].
  unfold older_first at 1. destruct (JS.leb _ _); [reflexivity|]. now rewrite IHs.
Qed.

Lemma older_first_total x y : older_first x y = false -> older_first y x = true.
Proof. apply leb_total. Qed.

Lemma older_first_trans x y z :
  older_first x y = true -> older_first y z = true -> older_first x z = true.
Proof. apply leb_trans. Qed.

Lemma newer_first_total x y : newer_first x y = false -> newer_first y x = true.
Proof. apply leb_total. Qed.

Lemma newer_first_trans x y z :
  newer_first x y = true -> newer_first y z = true -> newer_first x z = true.
Proof. unfold newer_first. intros H1 H2. exact (leb_trans _ _ _ H2 H1). Qed.

(** X10.  GET /chats/:id/messages answers 200 with exactly the rows of
    that conversation, each once, oldest first: every row is at most as
    recent as every row after it.  It changes nothing in the store, and
    for a conversation without rows (one that does not exist, too) the
    answer is the empty array, not a 404. *)
Theorem messages_listed_oldest_first reader conversationId d :
  fails reader SelectMessages = None ->
  let w := express (get_messages reader conversationId) (fresh_world d) in
  exists rows,
    (statusCode (res w), body (res w)) = (200%N, Some (JsonMessages rows))
    /\ Permutation rows
         (filter (fun m => JS.eqb (m_conversation_id m) conversationId) (messages d))
    /\ StronglySorted
         (fun a b => JS.leb (m_created_at a) (m_created_at b) = true) rows
    /\ db w = d
    /\ ((forall m, In m (messages d) -> m_conversation_id m <> conversationId) ->
        rows = []).
Proof.
  intro Hr. cbv zeta. exists (select_messages conversationId d).
  split; [|split; [|split; [|split]]].
  - unfold express, get_messages, bind, logger, query, send_json, with_res. simpl.
    now rewrite Hr.
  - unfold select_messages. rewrite order_by_created_at_stable. apply sort_stable_perm.
  - unfold select_messages. rewrite order_by_created_at_stable.
    apply (@sort_stable_sorted _ older_first older_first_total older_first_trans).
  - unfold express, get_messages, bind, logger, query, send_json, with_res. simpl.
    now rewrite Hr.
  - intro Hnone. unfold select_messages.
    replace (filter _ (messages d)) with (@nil message); [reflexivity|].
    symmetry. induction (messages d) as [|m l IH]; simpl; [reflexivity|].
    rewrite (eqb_neq (Hnone m (or_introl eq_refl))). apply IH.
    intros m' Hm'. apply Hnone. now right.
Qed.

(** X11.  GET /chats answers with every conversation, each once, most
    recently updated first, and changes nothing in the store. *)
Theorem conversations_listed_newest_first d :
  exists w rows,
    list_chats None (fresh_world d) = (w, inl rows)
    /\ Permutation rows (conversations d)
    /\ StronglySorted
         (fun a b => JS.leb (c_updated_at b) (c_updated_at a) = true) rows
    /\ db w = d.
Proof.
  eexists _, (select_conversations d). split; [reflexivity|].
  split; [apply sort_stable_perm|]. split; [|reflexivity].
  apply (@sort_stable_sorted _ newer_first newer_first_total newer_first_trans).
Qed.

Lemma find_app_none {A} (p : A -> bool) l x :
  find p l = None -> find p (l ++ [x]) = if p x then Some x else None.
Proof.
  induction l as [|y l IH]; simpl; [reflexivity|].
  destruct (p y); [discriminate|exact IH].
Qed.

(** X12.  POST /chats followed by GET /chats/:id is a round trip: when
    the new id is not yet in the table, the conversation found under the
    returned id has the posted title, or 'New Conversation' when the
    title is absent or the empty string, and the instant of the request
    as creation and update time; it is in the list of GET /chats; the
    conversations already there and all messages are untouched. *)
Theorem created_conversation_is_found env title d :
  get_conversation (uuid1 env) d = None ->
  fails env GetConversation = None ->
  exists w row,
    create_chat env title None (fresh_world d) = (w, inl (uuid1 env))
    /\ body (res (express (get_chat env (uuid1 env)) (fresh_world (db w))))
       = Some (JsonConversation row)
    /\ (c_id row, c_created_at row, c_updated_at row) = (uuid1 env, now env, now env)
    /\ c_title row = match title with
                     | Some (c :: t) => c :: t
                     | _ => lit "New Conversation"
                     end
    /\ In row (select_conversations (db w))
    /\ conversations (db w) = conversations d ++ [row]
    /\ messages (db w) = messages d.
Proof.
  intros Hfresh Hg.
  eexists _, {| c_rowid := next_rowid (map c_rowid (conversations d));
                c_id := uuid1 env; c_title := title_or_default title;
                c_created_at := now env; c_updated_at := now env |}.
  split; [unfold create_chat, bind, logger, run_insert, ret; simpl; reflexivity|].
  simpl db.
  split; [|split; [reflexivity|split; [|split; [|split; reflexivity]]]].
  - unfold express, get_chat, bind, logger, query, send_json, status_json, with_res.
    simpl. rewrite Hg. simpl. unfold get_conversation. simpl.
    unfold get_conversation in Hfresh. rewrite (find_app_none _ _ _ Hfresh).
    simpl. now rewrite eqb_refl.
  - now destruct title as [[|c t]|].
  - unfold select_conversations. simpl.
    apply (Permutation_in _ (Permutation_sym (sort_stable_perm newer_first _))).
    apply in_or_app. right. now left.
Qed.

(** X13.  PATCH /chats/:id on a conversation that exists, followed by
    GET /chats/:id, shows the posted title and the instant of the request
    as update time, with the rowid, the id and the creation time kept;
    every other conversation is found as before, and no message is
    touched. *)
Theorem retitled_conversation_is_found env id title d c :
  fails env UpdateTitle = None ->
  fails env GetConversation = None ->
  get_conversation id d = Some c ->
  let w := express (patch_chat env id title) (fresh_world d) in
  exists row,
    body (res (express (get_chat env id) (fresh_world (db w))))
    = Some (JsonConversation row)
    /\ (c_rowid row, c_id row, c_title row, c_created_at row, c_updated_at row)
       = (c_rowid c, id, title, c_created_at c, now env)
    /\ (forall id', id' <> id -> get_conversation id' (db w) = get_conversation id' d)
    /\ messages (db w) = messages d.
Proof.
  intros Hu Hg Hc. cbv zeta.
  assert (Hdb : db (express (patch_chat env id title) (fresh_world d))
                = fst (update_conversations (retitle title (now env)) id d)).
  { unfold express, patch_chat, bind, logger, run, send_json, status_json, with_res.
    simpl. now rewrite Hu. }
  rewrite Hdb. clear Hdb.
  assert (Hfind : forall id',
    get_conversation id' (fst (update_conversations (retitle title (now env)) id d))
    = if JS.eqb id' id
      then option_map (retitle title (now env)) (get_conversation id' d)
      else get_conversation id' d).
  { intro id'. unfold get_conversation, update_conversations. simpl.
    now apply find_retitled. }
  assert (Hid : c_id c = id).
  { unfold get_conversation in Hc. apply find_some in Hc as [_ Hc]. now apply eqb_eq. }
  exists (retitle title (now env) c).
  split; [|split; [|split; [|reflexivity]]].
  - unfold express, get_chat, bind, logger, query, send_json, status_json, with_res.
    simpl. rewrite Hg. simpl. rewrite Hfind, eqb_refl, Hc. reflexivity.
  - simpl. now rewrite Hid.
  - intros id' Hne. now rewrite Hfind, (eqb_neq Hne).
Qed.

Lemma find_after_delete id id' l :
  find (fun c => JS.eqb (c_id c) id')
       (filter (fun c => negb (JS.eqb (c_id c) id)) l)
  = if JS.eqb id' id then None else find (fun c => JS.eqb (c_id c) id') l.
Proof.
  induction l as [|c l IH]; simpl; [now destruct (JS.eqb id' id)|].
  destruct (JS.eqb (c_id c) id) eqn:E1; simpl.
  - apply eqb_eq in E1. rewrite IH, E1.
    destruct (JS.eqb id' id) eqn:E2; [reflexivity|].
    destruct (JS.eqb id id') eqn:E3; [|reflexivity].
    apply eqb_eq in E3. subst id'. now rewrite eqb_refl in E2.
  - destruct (JS.eqb (c_id c) id') eqn:E2; [|exact IH].
    apply eqb_eq in E2. subst id'. now rewrite E1.
Qed.

(** X14.  After DELETE /chats/:id, GET /chats/:id answers 404 'Not
    found', whether or not the conversation existed, and every other
    conversation is found as before. *)
Theorem deleted_conversation_is_gone env id d :
  fails env DeleteConversation = None ->
  fails env GetConversation = None ->
  let w := express (delete_chat env id) (fresh_world d) in
  let found := express (get_chat env id) (fresh_world (db w)) in
  (statusCode (res found), body (res found))
  = (404%N, Some (JsonError (lit "Not found")))
  /\ (forall id', id' <> id -> get_conversation id' (db w) = get_conversation id' d).
Proof.
  intros Hd Hg. cbv zeta.
  assert (Hdb : db (express (delete_chat env id) (fresh_world d))
                = fst (delete_conversation id d)).
  { unfold express, delete_chat, bind, logger, run, send_json, status_json, with_res.
    simpl. now rewrite Hd. }
  rewrite Hdb. clear Hdb.
  assert (Hfind : forall id',
    get_conversation id' (fst (delete_conversation id d))
    = if JS.eqb id' id then None else get_conversation id' d).
  { intro id'. unfold get_conversation, delete_conversation. simpl.
    apply find_after_delete. }
  split.
  - unfold express, get_chat, bind, logger, query, send_json, status_json, with_res.
    simpl. rewrite Hg. simpl. rewrite Hfind, eqb_refl. reflexivity.
  - intros id' Hne. now rewrite Hfind, (eqb_neq Hne).
Qed.

End ConversationRoutes.

(** * The browser side *)

(** ** frontend/src/components/MessageInput.tsx and the streaming text of
    frontend/src/App.tsx *)

Module MessageInput.

(** The state of the component: its four [useState] cells and the
    [cleanupRef], which holds the cleanup function of a subscription
    (subscriptions are numbered as they are made). *)
Record state := {
  message : jsstring;
  isSubmitting : bool;
  error : option jsstring;
  lastFailedMessage : jsstring;
  cleanupRef : option nat
}.

Definition initial : state :=
  {| message := []; isSubmitting := false; error := None;
     lastFailedMessage := []; cleanupRef := None |}.

(** What the component does to the outside. *)
Inductive effect :=
| Cleanup (subscription : nat)
| Subscribe (subscription : nat) (url content : jsstring)
| ConsoleLog
| ConsoleError
| ParentChunk (chunk : jsstring)
| ParentMessageSent.

(** [`/chats/${conversationId}/messages`] *)
Definition url_of (conversationId : jsstring) : jsstring :=
  lit "/chats/" ++ conversationId ++ lit "/messages".

(** [submitMessage(messageToSend)]; [next] numbers the subscription that
    [subscribeToSSE] makes. *)
Definition submitMessage (conversationId messageToSend : jsstring) (next : nat)
    (st : state) : state * list effect :=
  if negb (truthy (trim messageToSend)) then (st, [])
  else
    ({| message := message st; isSubmitting := true; error := None;
        lastFailedMessage := lastFailedMessage st; cleanupRef := Some next |},
     match cleanupRef st with Some running => [Cleanup running] | None => [] end
     ++ [Subscribe next (url_of conversationId) (trim messageToSend)]).

Definition handleSubmit (conversationId : jsstring) (next : nat) (st : state) :=
  submitMessage conversationId (message st) next st.

Definition handleRetry (conversationId : jsstring) (next : nat) (st : state) :=
  submitMessage conversationId (lastFailedMessage st) next st.

(** The three handlers passed to [subscribeToSSE] by the submission of
    [messageToSend]. *)
Definition onChunk (content : jsstring) (st : state) : state * list effect :=
  (st, [ConsoleLog; ParentChunk content]).

Definition onDone (st : state) : state * list effect :=
  ({| message := []; isSubmitting := false; error := error st;
      lastFailedMessage := []; cleanupRef := cleanupRef st |},
   [ConsoleLog; ParentMessageSent]).

Definition onError (messageToSend errorMessage : jsstring) (st : state)
  : state * list effect :=
  ({| message := message st; isSubmitting := false; error := Some errorMessage;
      lastFailedMessage := messageToSend; cleanupRef := cleanupRef st |},
   [ConsoleError]).

(** The streaming text of [App]: [onChunk] appends to it,
    [onMessageSent] clears it (and refetches the messages). *)
Definition app_effect (streamingMessage : jsstring) (e : effect) : jsstring :=
  match e with
  | ParentChunk chunk => streamingMessage ++ chunk
  | ParentMessageSent => []
  | _ => streamingMessage
  end.

Definition app_effects (streamingMessage : jsstring) (es : list effect) : jsstring :=
  fold_left app_effect es streamingMessage.

(** A subscription seen from the component: the chunks it delivers, and
    how it ends. *)
Inductive ending := EndsDone | EndsError (errorMessage : jsstring).

Definition deliver_chunks (chunks : list jsstring) (st : state) : state * list effect :=
  fold_left (fun acc c => let '(s, es) := onChunk c (fst acc) in (s, snd acc ++ es))
            chunks (st, []).

Definition finish (messageToSend : jsstring) (e : ending) (st : state)
  : state * list effect :=
  match e with
  | EndsDone => onDone st
  | EndsError errorMessage => onError messageToSend errorMessage st
  end.

(** One submission that is streamed to its end. *)
Definition exchange (messageToSend : jsstring) (chunks : list jsstring) (e : ending)
    (st : state) : state * list effect :=
  let '(s1, e1) := deliver_chunks chunks st in
  let '(s2, e2) := finish messageToSend e s1 in
  (s2, e1 ++ e2).

End MessageInput.

Section Browser.

Import OpenAIStream Store Chats MessageInput.

(** X15.  The component posts nothing for a message that is blank after
    trimming and otherwise posts the trimmed message, after cancelling the
    subscription still held; and the server never answers such a post
    with 'content is required' or 'cannot be empty': it takes the posted
    content as it is, or rejects it as too long. *)
Theorem client_never_posts_blank conversationId messageToSend next st :
  let r := submitMessage conversationId messageToSend next st in
  (trim messageToSend = [] /\ r = (st, []))
  \/ (trim messageToSend <> []
      /\ snd r = match cleanupRef st with Some running => [Cleanup running] | None => [] end
                 ++ [Subscribe next (url_of conversationId) (trim messageToSend)]
      /\ (isSubmitting (fst r), error (fst r), cleanupRef (fst r)) = (true, None, Some next)
      /\ (validate (VString (trim messageToSend)) = inl (trim messageToSend)
          \/ validate (VString (trim messageToSend))
             = inr (lit "Message too long (max 10000 characters)"))).
Proof.
  cbv zeta. unfold submitMessage.
  destruct (trim messageToSend) as [|c t] eqn:E; simpl; [now left|right].
  split; [discriminate|]. split; [reflexivity|]. split; [reflexivity|].
  unfold validate. simpl value_truthy. simpl typeof_string. cbn [negb orb string_of].
  rewrite <- E, trim_idempotent, E.
  destruct (N.eqb_spec (N.of_nat (List.length (c :: t))) 0) as [H|_];
    [simpl in H; lia|].
  destruct (10000 <? _)%N; auto.
Qed.

Lemma deliver_chunks_spec chunks : forall st es,
  fold_left (fun acc c => let '(s, es) := onChunk c (fst acc) in (s, snd acc ++ es))
            chunks (st, es)
  = (st, es ++ flat_map (fun c => [ConsoleLog; ParentChunk c]) chunks).
Proof.
  induction chunks as [|c chunks IH]; intros st es; simpl; [now rewrite app_nil_r|].
  rewrite IH. now rewrite <- app_assoc.
Qed.

Lemma app_effects_chunks chunks : forall text,
  app_effects text (flat_map (fun c => [ConsoleLog; ParentChunk c]) chunks)
  = text ++ List.concat chunks.
Proof.
  induction chunks as [|c chunks IH]; intro text; simpl; [now rewrite app_nil_r|].
  unfold app_effects in *. rewrite IH. now rewrite <- app_assoc.
Qed.

Lemma app_effects_app text es1 es2 :
  app_effects text (es1 ++ es2) = app_effects (app_effects text es1) es2.
Proof. apply fold_left_app. Qed.

(** X16.  The streaming text shown by the app is the concatenation of the
    chunks received; a stream that ends with done clears it, a stream that
    ends with an error does not, so the chunks of a following send are
    appended to what the failed one left. *)
Theorem streaming_text_survives_error messageToSend chunks e st text :
  let r := exchange messageToSend chunks e st in
  app_effects text (snd (deliver_chunks chunks st)) = text ++ List.concat chunks
  /\ app_effects text (snd r)
     = match e with
       | EndsDone => []
       | EndsError _ => text ++ List.concat chunks
       end.
Proof.
  cbv zeta. unfold exchange, deliver_chunks. rewrite deliver_chunks_spec.
  cbn [fst snd app].
  split; [apply app_effects_chunks|].
  destruct e; cbn [finish onDone onError fst snd];
    rewrite app_effects_app, app_effects_chunks; reflexivity.
Qed.

(** X17.  After a send that ended with an error the component shows the
    error, is no longer submitting, keeps the typed text, and remembers
    the message; Retry then posts to the same URL the same content the
    failed send posted, clears the error and is submitting again.  After
    a send that ended with done the input and the remembered message are
    empty, so Retry posts nothing. *)
Theorem retry_posts_the_failed_message conversationId messageToSend chunks
    errorMessage first second st :
  trim messageToSend <> [] ->
  let sent := submitMessage conversationId messageToSend first st in
  let failed := exchange messageToSend chunks (EndsError errorMessage) (fst sent) in
  let done := exchange messageToSend chunks EndsDone (fst sent) in
  let retried := handleRetry conversationId second (fst failed) in
  (error (fst failed), isSubmitting (fst failed), message (fst failed))
  = (Some errorMessage, false, message st)
  /\ In (Subscribe first (url_of conversationId) (trim messageToSend)) (snd sent)
  /\ snd retried = [Cleanup first;
                    Subscribe second (url_of conversationId) (trim messageToSend)]
  /\ (error (fst retried), isSubmitting (fst retried)) = (None, true)
  /\ (message (fst done), lastFailedMessage (fst done)) = ([], [])
  /\ handleRetry conversationId second (fst done) = (fst done, []).
Proof.
  intro Hne. cbv zeta.
  unfold handleRetry, exchange, deliver_chunks. rewrite deliver_chunks_spec.
  unfold submitMessage.
  destruct (trim messageToSend) as [|c t] eqn:E; [congruence|]. simpl.
  rewrite E. simpl.
  repeat split. apply in_or_app. right. now left.
Qed.

End Browser.

(** * Error texts and listing after a send *)

Section Containment.

Import OpenAIStream.

Lemma startsWith_spec p : forall s, startsWith s p = true <-> exists b, s = p ++ b.
Proof.
  induction p as [|a p IH]; intro s.
  - split; [intros _; now exists s|now destruct s].
  - destruct s as [|c s]; simpl; [split; [discriminate|intros (b & H); discriminate]|].
    rewrite andb_true_iff, N.eqb_eq, IH. split.
    + intros [-> (b & ->)]. now exists b.
    + intros (b & H). injection H as -> ->. eauto.
Qed.

(** [includes] is containment as a contiguous run. *)
Lemma includes_spec p : forall s,
  includes s p = true <-> exists a b, s = a ++ p ++ b.
Proof.
  induction s as [|c s IH]; cbn [includes].
  - rewrite orb_false_r, startsWith_spec. split.
    + intros (b & H). now exists [], b.
    + intros ([|? ?] & b & H); [now exists b|discriminate].
  - rewrite orb_true_iff, startsWith_spec, IH. split.
    + intros [(b & H)|(a & b & ->)]; [now exists [], b|now exists (c :: a), b].
    + intros ([|x a] & b & H); [left; now exists b|right].
      injection H as -> ->. now exists a, b.
Qed.

Definition contains (s p : jsstring) : Prop := exists a b, s = a ++ p ++ b.

(** X18.  The translation looks for its three patterns anywhere in the
    message, as exact (case-sensitive) runs, in a fixed priority: a
    message containing "API key" gets the configuration message whatever
    else it contains; otherwise one containing "rate limit" gets the busy
    message; otherwise one containing "insufficient_quota" gets the quota
    message; a message containing none of them gets the generic one.  The
    result is always one of these four texts. *)
Theorem translation_by_containment message :
  (contains message (lit "API key") -> friendlyMessage message = configuration_error)
  /\ (~ contains message (lit "API key") -> contains message (lit "rate limit") ->
      friendlyMessage message = busy_error)
  /\ (~ contains message (lit "API key") -> ~ contains message (lit "rate limit") ->
      contains message (lit "insufficient_quota") ->
      friendlyMessage message = quota_error)
  /\ (~ contains message (lit "API key") -> ~ contains message (lit "rate limit") ->
      ~ contains message (lit "insufficient_quota") ->
      friendlyMessage message = unavailable_error)
  /\ In (friendlyMessage message)
        [configuration_error; busy_error; quota_error; unavailable_error].
Proof.
  unfold contains, friendlyMessage.
  pose proof (includes_spec (lit "API key") message) as H1.
  pose proof (includes_spec (lit "rate limit") message) as H2.
  pose proof (includes_spec (lit "insufficient_quota") message) as H3.
  destruct (includes message (lit "API key"));
    destruct (includes message (lit "rate limit"));
    destruct (includes message (lit "insufficient_quota"));
    repeat split; intros; try reflexivity;
    try (exfalso; intuition congruence); simpl; tauto.
Qed.

End Containment.

Section AfterSend.

Import OpenAIStream Store Chats Conversations.

Variable env : environment.

(** X19.  No response of the send route carries the text of a provider or
    storage error: every error event holds one of the four fixed
    messages. *)
Theorem error_texts_are_fixed conversationId content d :
  let out := post_messages env conversationId content (fresh_world d) in
  forall text,
    In (SseError text) (events (res (fst out))) ->
    In text [configuration_error; busy_error; quota_error; unavailable_error].
Proof.
  cbv zeta.
  assert (Hfixed : forall e, In (friendlyMessage (error_message e))
                      [configuration_error; busy_error; quota_error; unavailable_error]).
  { intro e. apply translation_by_containment. }
  intros text Hin.
  destruct (send_outcomes env conversationId content d) as [[t Ha]|H].
  - destruct (send_summary Ha) as (_ & He & _). rewrite He in Hin. clear He.
    apply in_app_or in Hin as [Hin|Hin].
    { apply in_map_iff in Hin as (c & Hc & _). discriminate. }
    unfold finalization, error_events in Hin.
    destruct (generation_failure _).
    + destruct (fails env MarkFailed); simpl in Hin; [tauto|].
      destruct Hin as [Hin|[]]. injection Hin as <-. apply Hfixed.
    + destruct (fails env MarkSent).
      * destruct (fails env MarkFailed); simpl in Hin; [tauto|].
        destruct Hin as [Hin|[]]. injection Hin as <-. apply Hfixed.
      * destruct Hin as [Hin|[]]. discriminate.
  - destruct H as (_ & _ & _ & He & _). rewrite He in Hin. destruct Hin.
Qed.

Lemma finalized_conversations assistantMessageId r d :
  conversations (finalized env assistantMessageId r d) = conversations d.
Proof.
  unfold finalized, marked_failed.
  destruct (generation_failure r), (fails env MarkSent), (fails env MarkFailed);
    reflexivity.
Qed.

(** X20.  A send moves its conversation to the top of GET /chats: when
    every other conversation was last updated strictly before the
    instant of the send, the first conversation listed afterwards is the
    one sent to, with that instant as its update time. *)
Theorem sent_to_conversation_listed_first conversationId content trimmedContent d :
  accepted env conversationId content trimmedContent d ->
  (forall c, In c (conversations d) -> c_id c <> conversationId ->
             JS.leb (now env) (c_updated_at c) = false) ->
  let out := post_messages env conversationId content (fresh_world d) in
  exists w first rest,
    list_chats None (fresh_world (db (fst out))) = (w, inl (first :: rest))
    /\ c_id first = conversationId
    /\ c_updated_at first = now env.
Proof.
  intros Ha Holder. cbv zeta.
  set (d' := db (fst (post_messages env conversationId content (fresh_world d)))).
  assert (Hcs : conversations d'
                = map (fun c => if JS.eqb (c_id c) conversationId
                                then touch (now env) c else c) (conversations d)).
  { unfold d'. destruct (send_summary Ha) as (_ & _ & ->).
    rewrite finalized_conversations.
    now destruct (after_setup_rows env conversationId trimmedContent d) as [_ ->]. }
  assert (Hrow : forall x, In x (conversations d') ->
            (c_id x = conversationId /\ c_updated_at x = now env)
            \/ (c_id x <> conversationId /\ JS.leb (now env) (c_updated_at x) = false)).
  { intros x Hx. rewrite Hcs in Hx. apply in_map_iff in Hx as (c & <- & Hc).
    destruct (JS.eqb (c_id c) conversationId) eqn:E.
    - left. apply eqb_eq in E. now split.
    - right. assert (c_id c <> conversationId) by (intro K; rewrite K, eqb_refl in E; discriminate).
      split; [assumption|now apply Holder]. }
  assert (Htouched : exists x, In x (conversations d')
                               /\ c_id x = conversationId /\ c_updated_at x = now env).
  { destruct Ha as (_ & _ & Hc & _). unfold get_conversation in Hc.
    destruct (find _ (conversations d)) as [c|] eqn:Hf; [|congruence].
    apply find_some in Hf as [Hin E]. exists (touch (now env) c).
    split; [|split; [now apply eqb_eq in E|reflexivity]].
    rewrite Hcs. apply in_map_iff. exists c. now rewrite E. }
  pose proof (sort_stable_perm newer_first (conversations d')) as Hperm.
  pose proof (@sort_stable_sorted _ newer_first newer_first_total newer_first_trans
                (conversations d')) as Hsorted.
  fold (select_conversations d') in Hperm, Hsorted.
  destruct Htouched as (x & Hx & Hxid & Hxu).
  apply (Permutation_in _ (Permutation_sym Hperm)) in Hx.
  destruct (select_conversations d') as [|first rest] eqn:Hsel; [destruct Hx|].
  eexists _, first, rest. split.
  { unfold list_chats, bind, logger, all, ret. simpl. rewrite Hsel. reflexivity. }
  assert (Hfirst : In first (conversations d')).
  { apply (Permutation_in _ Hperm). now left. }
  destruct (Hrow first Hfirst) as [[H1 H2]|[H1 H2]]; [now split|].
  exfalso. destruct Hx as [->|Hx]; [contradiction|].
  inversion Hsorted as [|? ? _ Hall]; subst.
  rewrite Forall_forall in Hall. specialize (Hall x Hx).
  unfold newer_first in Hall. rewrite Hxu, H2 in Hall. discriminate.
Qed.

End AfterSend.

(** * Concrete instances of the further properties *)

Module Scenario2.

Import OpenAIStream Store Chats Scenario.

Definition conversation2 : conversation :=
  {| c_rowid := 2; c_id := lit "c2"; c_title := lit "Bids";
     c_created_at := lit "2024-05-01T10:01:00.000Z";
     c_updated_at := lit "2024-05-01T10:03:00.000Z" |}.

Definition earlier_question : message :=
  {| m_rowid := 1; m_id := lit "m1"; m_conversation_id := lit "c1"; m_role := User;
     m_content := lit "First"; m_status := Sent; m_error_message := None;
     m_created_at := lit "2024-05-01T10:02:00.000Z" |}.

Definition other_question : message :=
  {| m_rowid := 2; m_id := lit "m2"; m_conversation_id := lit "c2"; m_role := User;
     m_content := lit "Elsewhere"; m_status := Sent; m_error_message := None;
     m_created_at := lit "2024-05-01T10:03:00.000Z" |}.

(** Two conversations, one message in each. *)
Definition store2 : database :=
  {| conversations := [conversation1; conversation2];
     messages := [earlier_question; other_question];
     last_insert_rowid := 2 |}.

End Scenario2.

Section FurtherScenarios.

Import OpenAIStream Store Chats Conversations MessageInput Scenario Scenario2.

Lemma hello_accepted_in_store2 fails provider :
  fails SelectConversationId = None ->
  fails InsertUserMessage = None ->
  fails InsertAssistantMessage = None ->
  fails TouchConversation = None ->
  fails SelectHistory = None ->
  accepted (request fails provider) (lit "c1") hello (lit "Hello") store2.
Proof.
  intros H1 H2 H3 H4 H5. unfold accepted. simpl.
  repeat split; try assumption; try reflexivity. discriminate.
Defined.

Lemma cancel_lets_earlier_chunks_through_witness :
  let r := createAIStream (note "chunk") (note "error") (note "done")
             says_hello during_second_chunk (lit "Hello")
             {| instructions := None; conversationHistory := None |} [] in
  filter is_callback (trace (fst r)) = [EvChunk (lit "Hel")]
  /\ snd r = Resolved
  /\ caller (fst r) = [("chunk"%string, lit "Hel")].
Proof.
  cbv zeta.
  exact (@cancel_lets_earlier_chunks_through _ (note "chunk") (note "error") (note "done")
           says_hello during_second_chunk (fun _ _ => eq_refl) (lit "Hello")
           {| instructions := None; conversationHistory := None |} []
           [Some (lit "Hel"); None; Some []; Some (lit "lo")] StreamDone 1
           eq_refl
           (fun j Hj => match j as j0 return j0 <= 1 -> during_second_chunk j0 = false with
                        | 0 => fun _ => eq_refl
                        | 1 => fun _ => eq_refl
                        | S (S j') => fun H => False_ind _ (Nat.nle_succ_0 _ (le_S_n _ _ H))
                        end Hj)
           eq_refl (le_S _ _ (le_S _ _ (le_S _ _ (le_n 1))))).
Defined.

Lemma unknown_conversation_is_404_witness :
  let out := post_messages (request healthy says_hello) (lit "c9") hello
               (fresh_world store2) in
  (statusCode (res (fst out)), body (res (fst out)))
  = (404%N, Some (JsonError (lit "Conversation not found")))
  /\ db (fst out) = store2
  /\ journal (fst out) = [SelectConversationId]
  /\ events (res (fst out)) = []
  /\ snd out = inl None.
Proof.
  cbv zeta.
  exact (@unknown_conversation_is_404 (request healthy says_hello) (lit "c9") hello
           (lit "Hello") store2 eq_refl eq_refl eq_refl).
Defined.

Lemma stream_ends_with_terminal_event_witness :
  ended (res (fst (post_messages (request failed_update_locked rate_limited_after_hi)
                     (lit "c1") hello (fresh_world store2)))) = false.
Proof.
  exact (proj2 (@stream_ends_with_terminal_event
                  (request failed_update_locked rate_limited_after_hi)
                  (lit "c1") hello (lit "Hello") store2
                  (hello_accepted_in_store2 failed_update_locked rate_limited_after_hi
                     eq_refl eq_refl eq_refl eq_refl eq_refl))
           (ErrorObj (lit "429 rate limit reached")) locked eq_refl eq_refl).
Defined.



Lemma messages_listed_oldest_first_witness :
  let env := request healthy says_hello in
  let after := db (fst (post_messages env (lit "c1") hello (fresh_world store2))) in
  let w := express (get_messages env (lit "c1")) (fresh_world after) in
  exists rows,
    (statusCode (res w), body (res w)) = (200%N, Some (JsonMessages rows))
    /\ Permutation rows
         (filter (fun m => JS.eqb (m_conversation_id m) (lit "c1")) (messages after))
    /\ StronglySorted (fun a b => JS.leb (m_created_at a) (m_created_at b) = true) rows.
Proof.
  cbv zeta.
  destruct (@messages_listed_oldest_first (request healthy says_hello) (lit "c1")
              (db (fst (post_messages (request healthy says_hello) (lit "c1") hello
                          (fresh_world store2)))) eq_refl)
    as (rows & H1 & H2 & H3 & _).
  exists rows. split; [exact H1|]. split; [exact H2|exact H3].
Defined.

Lemma created_conversation_is_found_witness :
  let env := request healthy says_hello in
  exists w row,
    create_chat env (Some (lit "Tenders")) None (fresh_world store2)
    = (w, inl (lit "user-1"))
    /\ body (res (express (get_chat env (lit "user-1")) (fresh_world (db w))))
       = Some (JsonConversation row)
    /\ (c_id row, c_created_at row, c_updated_at row)
       = (lit "user-1", lit "2024-05-01T10:05:00.000Z", lit "2024-05-01T10:05:00.000Z")
    /\ c_title row = lit "Tenders".
Proof.
  cbv zeta.
  destruct (@created_conversation_is_found (request healthy says_hello)
              (Some (lit "Tenders")) store2 eq_refl eq_refl)
    as (w & row & H1 & H2 & H3 & H4 & _).
  exists w, row. split; [exact H1|]. split; [exact H2|]. split; [exact H3|exact H4].
Defined.

Lemma retitled_conversation_is_found_witness :
  let env := request healthy says_hello in
  let w := express (patch_chat env (lit "c2") (lit "Specs")) (fresh_world store2) in
  (exists row,
     body (res (express (get_chat env (lit "c2")) (fresh_world (db w))))
     = Some (JsonConversation row)
     /\ (c_rowid row, c_id row, c_title row, c_created_at row, c_updated_at row)
        = (2%N, lit "c2", lit "Specs", lit "2024-05-01T10:01:00.000Z",
           lit "2024-05-01T10:05:00.000Z"))
  /\ get_conversation (lit "c1") (db w) = Some conversation1.
Proof.
  cbv zeta.
  destruct (@retitled_conversation_is_found (request healthy says_hello) (lit "c2")
              (lit "Specs") store2 conversation2 eq_refl eq_refl eq_refl)
    as (row & H1 & H2 & H3 & _).
  split; [exists row; split; [exact H1|exact H2]|].
  rewrite (H3 (lit "c1")) by discriminate. reflexivity.
Defined.

Lemma deleted_conversation_is_gone_witness :
  let env := request healthy says_hello in
  let w := express (delete_chat env (lit "c2")) (fresh_world store2) in
  let found := express (get_chat env (lit "c2")) (fresh_world (db w)) in
  (statusCode (res found), body (res found)) = (404%N, Some (JsonError (lit "Not found")))
  /\ get_conversation (lit "c1") (db w) = Some conversation1.
Proof.
  cbv zeta.
  destruct (@deleted_conversation_is_gone (request healthy says_hello) (lit "c2") store2
              eq_refl eq_refl) as (H1 & H2).
  split; [exact H1|]. rewrite (H2 (lit "c1")) by discriminate. reflexivity.
Defined.

Lemma retry_posts_the_failed_message_witness :
  let sent := submitMessage (lit "c1") (lit " Hello ") 1 initial in
  let failed := exchange (lit " Hello ") [lit "Hi"] (EndsError busy_error) (fst sent) in
  snd (handleRetry (lit "c1") 2 (fst failed))
  = [Cleanup 1; Subscribe 2 (url_of (lit "c1")) (lit "Hello")].
Proof.
  cbv zeta.
  exact (proj1 (proj2 (proj2 (@retry_posts_the_failed_message (lit "c1") (lit " Hello ")
                                [lit "Hi"] busy_error 1 2 initial ltac:(discriminate))))).
Defined.

Lemma error_texts_are_fixed_witness :
  let out := post_messages (request healthy rate_limited_after_hi) (lit "c1") hello
               (fresh_world store2) in
  In (SseError busy_error) (events (res (fst out)))
  /\ In busy_error [configuration_error; busy_error; quota_error; unavailable_error].
Proof.
  cbv zeta.
  assert (H : In (SseError busy_error)
                (events (res (fst (post_messages (request healthy rate_limited_after_hi)
                                     (lit "c1") hello (fresh_world store2))))))
    by (vm_compute; right; left; reflexivity).
  split; [exact H|].
  exact (@error_texts_are_fixed (request healthy rate_limited_after_hi) (lit "c1") hello
           store2 busy_error H).
Defined.

Lemma sent_to_conversation_listed_first_witness :
  let env := request healthy says_hello in
  let out := post_messages env (lit "c1") hello (fresh_world store2) in
  exists w first rest,
    list_chats None (fresh_world (db (fst out))) = (w, inl (first :: rest))
    /\ c_id first = lit "c1"
    /\ c_updated_at first = lit "2024-05-01T10:05:00.000Z".
Proof.
  cbv zeta.
  apply (@sent_to_conversation_listed_first (request healthy says_hello) (lit "c1") hello
           (lit "Hello") store2
           (hello_accepted_in_store2 healthy says_hello
              eq_refl eq_refl eq_refl eq_refl eq_refl)).
  intros c [<-|[<-|[]]] Hne; [exfalso; now apply Hne|reflexivity].
Defined.

End FurtherScenarios.
